(** * requests_toolbelt.threaded.pool

    A shallow embedding of [src/requests_toolbelt/threaded/pool.py]: the
    [Pool] class with its two alternative constructors and its non-blocking
    drains, the [ThreadProxy] attribute forwarding of [ThreadResponse] and
    [ThreadException], and the worker loop the pool hands its queues to. *)

From Stdlib Require Import ZArith Lia.
From stdpp Require Import gmap strings list.

Local Open Scope Z_scope.

(** ** [queue.Queue]

    The standard library FIFO queue, seen from one thread at a time: [put]
    appends at the back, [get_nowait] removes the front element or raises
    [queue.Empty]. *)
Module Queue.

Definition t (A : Type) : Type := list A.

Inductive Empty : Type := EmptyExn.

Definition new {A : Type} : t A := [].

Definition put {A : Type} (x : A) (q : t A) : t A := q ++ [x].

Definition get_nowait {A : Type} (q : t A) : (Empty + A) * t A :=
  match q with
  | [] => (inl EmptyExn, [])
  | x :: q' => (inr x, q')
  end.

End Queue.

(** ** The interpreter state

    Python values that a request description may hold, dictionaries as
    objects on a heap (so that aliasing and [dict.copy] can be told apart),
    and the two counters that make the effects of building a pool visible:
    how often the session factory was called and how many worker threads
    were started. *)

Definition loc : Type := positive.

Inductive PyVal : Type :=
| VNone
| VStr (s : string)
| VInt (z : Z)
| VRef (l : loc).

Record World : Type := mkWorld {
  heap : gmap loc (gmap string PyVal);
  session_calls : nat;
  threads_started : nat
}.

Inductive PyError : Type :=
| ValueError (msg : string)
| TypeError
| AttributeError
| RecursionError.

(** Computations that read and write the interpreter state and may raise. *)
Definition M (A : Type) : Type := World -> (PyError + A) * World.

Definition ret {A : Type} (x : A) : M A := fun w => (inr x, w).

Definition raise {A : Type} (e : PyError) : M A := fun w => (inl e, w).

Definition bind {A B : Type} (c : M A) (k : A -> M B) : M B :=
  fun w =>
    match c w with
    | (inl e, w') => (inl e, w')
    | (inr x, w') => k x w'
    end.

Declare Scope py_scope.
Delimit Scope py_scope with py.
Notation "x <- c ;; k" := (bind c (fun x => k))
  (at level 100, c at next level, right associativity) : py_scope.
Local Open Scope py_scope.

(** A loop [for x in l: body] that carries the local state [s]. *)
Fixpoint for_each {A S : Type} (l : list A) (body : A -> S -> M S) (s : S)
    : M S :=
  match l with
  | [] => ret s
  | x :: l' => s' <- body x s ;; for_each l' body s'
  end.

(** A comprehension [[c for _ in range(n)]]. *)
Fixpoint repeatM {A : Type} (n : nat) (c : M A) : M (list A) :=
  match n with
  | O => ret []
  | S n' => x <- c ;; xs <- repeatM n' c ;; ret (x :: xs)
  end.

(** ** [Pool.__init__] and [Pool._new_session] *)
Section PoolDef.

Context {Client Job Resp Exn : Type}.

(** What [multiprocessing.cpu_count()] returns on the machine at hand. *)
Variable cpu_count : Z.

(** Modelled from the spec: a [thread.SessionThread], whose class is in
    [thread.py], as the session it was given.  The three queues it receives
    are the pool's own, shared by reference. *)
Record SessionThread : Type := mkSessionThread {
  thread_session : Client
}.

Record Pool : Type := mkPool {
  _job_queue : Queue.t Job;
  _response_queue : Queue.t (Job * Resp);
  _exc_queue : Queue.t (Job * Exn);
  _processes : Z;
  _initializer : Client -> Client;
  _auth : Client -> Client;
  _session : nat -> Client;
  _pool : list SessionThread
}.

Definition _identity (session_obj : Client) : Client := session_obj.

(** A callable handed to the pool: what calling it does, and its truth
    value as a Python object (true for a plain function; an object with
    [__bool__] or [__len__] may be false). *)
Record Callable : Type := mkCallable {
  call : Client -> Client;
  truth : bool
}.

(** [x or _identity], where [x] is [None] or a callable: [x] when [x] is
    true as a Python value, else [_identity]. *)
Definition or_identity (f : option Callable) : Client -> Client :=
  match f with
  | Some g => if truth g then call g else _identity
  | None => _identity
  end.

(** [self._session()]: the [k]-th instantiation of the session class gives
    the client [session k]. *)
Definition call_session (session : nat -> Client) : M Client :=
  fun w =>
    (inr (session (session_calls w)),
     mkWorld (heap w) (S (session_calls w)) (threads_started w)).

Definition _new_session (initializer auth : Client -> Client)
    (session : nat -> Client) : M Client :=
  s <- call_session session ;;
  ret (auth (initializer s)).

(** Modelled from the spec: the constructor call
    [thread.SessionThread(session, jobs, responses, exceptions)] of
    [thread.py], which starts the worker thread at once. *)
Definition start_thread (s : Client) : M SessionThread :=
  fun w =>
    (inr (mkSessionThread s),
     mkWorld (heap w) (session_calls w) (S (threads_started w))).

(** [num_processes] after the default [cpu_count() or 1] is filled in. *)
Definition default_processes (num_processes : option Z) : Z :=
  match num_processes with
  | None => if cpu_count =? 0 then 1 else cpu_count
  | Some n => n
  end.

Definition Pool_init (job_queue : Queue.t Job)
    (initializer auth_generator : option Callable)
    (num_processes : option Z) (session : nat -> Client) : M Pool :=
  let num_processes := default_processes num_processes in
  if num_processes <? 1 then
    raise (ValueError "Number of processes should at least be 1."%string)
  else
    let init := or_identity initializer in
    let auth := or_identity auth_generator in
    pool <- repeatM (Z.to_nat num_processes)
              (s <- _new_session init auth session ;; start_thread s) ;;
    ret (mkPool job_queue Queue.new Queue.new num_processes
           init auth session pool).

End PoolDef.

Arguments SessionThread : clear implicits.
Arguments Pool : clear implicits.
Arguments Callable : clear implicits.

(** ** Attribute access on the outcome wrappers

    [ThreadProxy] defines [__getattr__], which Python calls only after the
    ordinary lookup ([object.__getattribute__]: instance fields, then the
    class namespaces along the method resolution order) has raised
    [AttributeError]. *)

Inductive ClassName : Type :=
| ThreadProxyC
| ThreadResponseC
| ThreadExceptionC.

(** What a class namespace binds a name to. *)
Inductive ClassAttr : Type :=
| ProxiedAttr (field : option string)
| Attrs (names : list string)
| Method (owner : ClassName) (name : string)
| Builtin (name : string).

(** The wrapped response or exception is an object of its own: all that is
    known of it is what attribute access on it gives. *)
Class PyObject (Value Obj : Type) : Type :=
  py_getattr : Obj -> string -> PyError + Value.

Module ThreadProxy.
Section Proxy.

Context {Job Obj Value : Type} `{PyObject Value Obj}.

(** Names that the interpreter resolves on every instance through the base
    class [object] and the implicit entries of a class namespace
    ([__class__], [__dict__], [__doc__], ...).  All of them start with two
    underscores. *)
Variable builtin_attr : string -> bool.

Inductive AttrValue : Type :=
| StoredRequest (r : Job)
| StoredObject (o : Obj)
| ClassValue (a : ClassAttr)
| Forwarded (v : Value).

(** The namespace written in each class body. *)
Definition class_dict (c : ClassName) : list (string * ClassAttr) :=
  match c with
  | ThreadProxyC =>
      [("proxied_attr", ProxiedAttr None);
       ("__getattr__", Method ThreadProxyC "__getattr__");
       ("from_queue", Method ThreadProxyC "from_queue")]
  | ThreadResponseC =>
      [("proxied_attr", ProxiedAttr (Some "response"));
       ("attrs", Attrs ["request_kwargs"; "response"]);
       ("__init__", Method ThreadResponseC "__init__")]
  | ThreadExceptionC =>
      [("proxied_attr", ProxiedAttr (Some "exception"));
       ("attrs", Attrs ["request_kwargs"; "exception"]);
       ("__init__", Method ThreadExceptionC "__init__")]
  end%string.

Fixpoint assoc (name : string) (l : list (string * ClassAttr))
    : option ClassAttr :=
  match l with
  | [] => None
  | (k, v) :: l' => if String.eqb k name then Some v else assoc name l'
  end.

(** The classes of the source along the resolution order of [c]. *)
Definition mro (c : ClassName) : list ClassName :=
  match c with
  | ThreadProxyC => [ThreadProxyC]
  | ThreadResponseC => [ThreadResponseC; ThreadProxyC]
  | ThreadExceptionC => [ThreadExceptionC; ThreadProxyC]
  end.

Fixpoint lookup_classes (cs : list ClassName) (name : string)
    : option ClassAttr :=
  match cs with
  | [] => None
  | c :: cs' =>
      match assoc name (class_dict c) with
      | Some a => Some a
      | None => lookup_classes cs' name
      end
  end.

(** Lookup on the type: the classes of the source, then [object]. *)
Definition type_lookup (c : ClassName) (name : string) : option ClassAttr :=
  match lookup_classes (mro c) name with
  | Some a => Some a
  | None =>
      if String.prefix "__" name && builtin_attr name
      then Some (Builtin name) else None
  end.

(** An instance: its class and its [__dict__]. *)
Record Instance : Type := mkInstance {
  inst_class : ClassName;
  inst_dict : string -> option AttrValue
}.

(** [object.__getattribute__(self, name)].  No class here binds a data
    descriptor to the name of an instance field, so the instance fields
    are looked at first. *)
Definition object_getattribute (self : Instance) (name : string)
    : PyError + AttrValue :=
  match inst_dict self name with
  | Some v => inr v
  | None =>
      match type_lookup (inst_class self) name with
      | Some a => inr (ClassValue a)
      | None => inl AttributeError
      end
  end.

(** The result of an attribute access on the wrapped object, handed on. *)
Definition forwarded (r : PyError + Value) : PyError + AttrValue :=
  match r with
  | inr x => inr (Forwarded x)
  | inl e => inl e
  end.

(** [getattr(v, attr)] on the value the proxied field holds. *)
Definition getattr_object (v : AttrValue) (attr : string)
    : PyError + AttrValue :=
  match v with
  | StoredObject o => forwarded (py_getattr o attr)
  | _ => inl AttributeError
  end.

(** [ThreadProxy.__getattr__].  The reads of [self.attrs] and
    [self.proxied_attr] in its body are attribute accesses themselves: where
    the class defines no [attrs], the read re-enters [__getattr__] without
    end. *)
Definition __getattr__ (self : Instance) (attr : string)
    : PyError + AttrValue :=
  let get := object_getattribute in
  match get self "attrs" with
  | inr (ClassValue (Attrs attrs)) =>
      if negb (existsb (String.eqb attr) attrs) then
        match get self "proxied_attr" with
        | inr (ClassValue (ProxiedAttr (Some proxied_attr))) =>
            match get self proxied_attr with
            | inr response => getattr_object response attr
            | inl e => inl e
            end
        | inr _ => inl TypeError
        | inl e => inl e
        end
      else get self attr
  | inr _ => inl TypeError
  | inl _ => inl RecursionError
  end.

(** The expression [self.name]. *)
Definition getattr (self : Instance) (name : string)
    : PyError + AttrValue :=
  match object_getattribute self name with
  | inl AttributeError => __getattr__ self name
  | r => r
  end.

End Proxy.
End ThreadProxy.

Module ThreadResponse.
Section Wrapper.

Context {Job Resp : Type}.

Record t : Type := init {
  request_kwargs : Job;
  response : Resp
}.

Definition from_queue (qtuple : Job * Resp) : t :=
  let '(request_kwargs, proxied_obj) := qtuple in
  init request_kwargs proxied_obj.

Definition instance {Value : Type} (self : t)
    : @ThreadProxy.Instance Job Resp Value :=
  ThreadProxy.mkInstance ThreadResponseC
    (fun name =>
       if String.eqb name "request_kwargs"
       then Some (ThreadProxy.StoredRequest (request_kwargs self))
       else if String.eqb name "response"
       then Some (ThreadProxy.StoredObject (response self))
       else None).

End Wrapper.
Arguments t : clear implicits.
End ThreadResponse.

Module ThreadException.
Section Wrapper.

Context {Job Exn : Type}.

Record t : Type := init {
  request_kwargs : Job;
  exception : Exn
}.

Definition from_queue (qtuple : Job * Exn) : t :=
  let '(request_kwargs, proxied_obj) := qtuple in
  init request_kwargs proxied_obj.

Definition instance {Value : Type} (self : t)
    : @ThreadProxy.Instance Job Exn Value :=
  ThreadProxy.mkInstance ThreadExceptionC
    (fun name =>
       if String.eqb name "request_kwargs"
       then Some (ThreadProxy.StoredRequest (request_kwargs self))
       else if String.eqb name "exception"
       then Some (ThreadProxy.StoredObject (exception self))
       else None).

End Wrapper.
Arguments t : clear implicits.
End ThreadException.

(** ** The drains of a pool and its alternative constructors *)
Section PoolOps.

Context {Client Job Resp Exn : Type}.

Variable cpu_count : Z.

Definition set_response_queue (q : Queue.t (Job * Resp))
    (self : Pool Client Job Resp Exn) : Pool Client Job Resp Exn :=
  mkPool (_job_queue self) q (_exc_queue self) (_processes self)
    (_initializer self) (_auth self) (_session self) (_pool self).

Definition set_exc_queue (q : Queue.t (Job * Exn))
    (self : Pool Client Job Resp Exn) : Pool Client Job Resp Exn :=
  mkPool (_job_queue self) (_response_queue self) q (_processes self)
    (_initializer self) (_auth self) (_session self) (_pool self).

Definition get_exception (self : Pool Client Job Resp Exn)
    : option (ThreadException.t Job Exn) * Pool Client Job Resp Exn :=
  match Queue.get_nowait (_exc_queue self) with
  | (inr qtuple, q') =>
      (Some (ThreadException.from_queue qtuple), set_exc_queue q' self)
  | (inl Queue.EmptyExn, _) => (None, self)
  end.

Definition get_response (self : Pool Client Job Resp Exn)
    : option (ThreadResponse.t Job Resp) * Pool Client Job Resp Exn :=
  match Queue.get_nowait (_response_queue self) with
  | (inr qtuple, q') =>
      (Some (ThreadResponse.from_queue qtuple), set_response_queue q' self)
  | (inl Queue.EmptyExn, _) => (None, self)
  end.

(** A generator object: suspended (possibly not yet started) or finished.
    Creating it runs none of its body. *)
Inductive Generator : Type := Suspended | Finished.

(** One [next()] on a generator whose body is
    [while True: x = get(); if x is None: break; yield x].  [None] stands
    for [StopIteration]. *)
Definition generator_next {A : Type}
    (get : Pool Client Job Resp Exn -> option A * Pool Client Job Resp Exn)
    (g : Generator) (self : Pool Client Job Resp Exn)
    : option A * Generator * Pool Client Job Resp Exn :=
  match g with
  | Finished => (None, Finished, self)
  | Suspended =>
      match get self with
      | (None, self') => (None, Finished, self')
      | (Some x, self') => (Some x, Suspended, self')
      end
  end.

Definition exceptions (self : Pool Client Job Resp Exn) : Generator :=
  Suspended.

Definition exceptions_next := generator_next get_exception.

Definition responses (self : Pool Client Job Resp Exn) : Generator :=
  Suspended.

Definition responses_next := generator_next get_response.

(** Iterating a generator to its end, as [for x in g] or [list(g)] do,
    with no other thread touching the pool meanwhile.  [fuel] bounds the
    number of [next()] calls. *)
Fixpoint iterate {A : Type}
    (next : Generator -> Pool Client Job Resp Exn ->
            option A * Generator * Pool Client Job Resp Exn)
    (fuel : nat) (g : Generator) (self : Pool Client Job Resp Exn)
    : option (list A * Generator * Pool Client Job Resp Exn) :=
  match fuel with
  | O => None
  | S fuel' =>
      match next g self with
      | (None, g', self') => Some ([], g', self')
      | (Some x, g', self') =>
          match iterate next fuel' g' self' with
          | Some (xs, g'', self'') => Some (x :: xs, g'', self'')
          | None => None
          end
      end
  end.

(** The first [n] items of a generator, one [next()] each. *)
Fixpoint take_next {A : Type}
    (next : Generator -> Pool Client Job Resp Exn ->
            option A * Generator * Pool Client Job Resp Exn)
    (n : nat) (g : Generator) (self : Pool Client Job Resp Exn)
    : list (option A) * Generator * Pool Client Job Resp Exn :=
  match n with
  | O => ([], g, self)
  | S n' =>
      let '(x, g', self') := next g self in
      let '(xs, g'', self'') := take_next next n' g' self' in
      (x :: xs, g'', self'')
  end.

(** [n] calls of a getter in a row, with the results in call order. *)
Fixpoint call_repeatedly {A : Type}
    (get : Pool Client Job Resp Exn -> option A * Pool Client Job Resp Exn)
    (n : nat) (self : Pool Client Job Resp Exn)
    : list (option A) * Pool Client Job Resp Exn :=
  match n with
  | O => ([], self)
  | S n' =>
      let '(x, self') := get self in
      let '(xs, self'') := call_repeatedly get n' self' in
      (x :: xs, self'')
  end.

Definition from_exceptions (exceptions : list (ThreadException.t Job Exn))
    (initializer auth_generator : option (Callable Client))
    (num_processes : option Z) (session : nat -> Client)
    : M (Pool Client Job Resp Exn) :=
  let job_queue :=
    fold_left
      (fun job_queue exc =>
         Queue.put (ThreadException.request_kwargs exc) job_queue)
      exceptions Queue.new in
  Pool_init cpu_count job_queue initializer auth_generator num_processes
    session.

End PoolOps.

(** ** Dictionaries on the heap and [Pool.from_urls] *)

Definition set_heap (h : gmap loc (gmap string PyVal)) (w : World) : World :=
  mkWorld h (session_calls w) (threads_started w).

(** A dictionary display [{...}] or any other creation of a new dict. *)
Definition new_dict (d : gmap string PyVal) : M loc :=
  fun w =>
    let l := fresh (dom (heap w)) in
    (inr l, set_heap (<[l := d]> (heap w)) w).

(** [target.update(src)]: the entries of [src] win. *)
Definition dict_update (target src : loc) : M unit :=
  fun w =>
    match heap w !! target, heap w !! src with
    | Some d, Some s => (inr tt, set_heap (<[target := s ∪ d]> (heap w)) w)
    | _, _ => (inl TypeError, w)
    end.

(** [target.update({...})] with a display that nothing else refers to: the
    display is a temporary and is not recorded on the heap. *)
Definition dict_update_display (target : loc) (items : gmap string PyVal)
    : M unit :=
  fun w =>
    match heap w !! target with
    | Some d => (inr tt, set_heap (<[target := items ∪ d]> (heap w)) w)
    | None => (inl TypeError, w)
    end.

(** [src.copy()]: a new dict with the same entries. *)
Definition dict_copy (src : loc) : M loc :=
  fun w =>
    match heap w !! src with
    | Some d => new_dict d w
    | None => (inl TypeError, w)
    end.

(** The job the documentation of [from_urls] describes for one URL: the
    mapping [{'method': 'GET'}] updated with [request_kwargs] and then with
    [{'url': url}]. *)
Definition expected_job (request_kwargs : gmap string PyVal) (url : PyVal)
    : gmap string PyVal :=
  <["url"%string := url]>
    (request_kwargs ∪ {["method"%string := VStr "GET"]}).

Section FromUrls.

Context {Client Resp Exn : Type}.

Variable cpu_count : Z.

(** The body of [from_urls] up to the call of [cls]: the job queue it
    fills.  Jobs are references to dicts. *)
Definition from_urls_queue (urls : list PyVal) (request_kwargs : loc)
    : M (Queue.t loc) :=
  request_dict <- new_dict {["method"%string := VStr "GET"]} ;;
  _ <- dict_update request_dict request_kwargs ;;
  for_each urls
    (fun url job_queue =>
       job <- dict_copy request_dict ;;
       _ <- dict_update_display job {["url"%string := url]} ;;
       ret (Queue.put job job_queue))
    Queue.new.

Definition from_urls (urls : list PyVal) (request_kwargs : loc)
    (initializer auth_generator : option (Callable Client))
    (num_processes : option Z) (session : nat -> Client)
    : M (Pool Client loc Resp Exn) :=
  job_queue <- from_urls_queue urls request_kwargs ;;
  Pool_init cpu_count job_queue initializer auth_generator num_processes
    session.

End FromUrls.

(** ** The workers

    [thread.SessionThread] is defined in [thread.py]; the pool only creates
    the threads and joins them.  The worker loop below follows the worker
    state machine and per-job algorithm of the specification, with the
    threads interleaved one atomic queue operation at a time. *)
Module Workers.
Section System.

Context {Client Job Resp Exn : Type}.

(** The transport capability: executing a request description against a
    client gives a response or raises, and may change the client. *)
Variable execute : Client -> Job -> Client * (Resp + Exn).

(** Modelled from the spec: the worker state machine of [thread.py],
    Running (with or without a pulled job in hand), Draining once a pull
    found the job queue empty, then Terminated. *)
Inductive Phase : Type :=
| Running (held : option Job)
| Draining
| Terminated.

Record Worker : Type := mkWorker {
  client : Client;
  phase : Phase
}.

(** The shared queues and the workers.  [submitted] and [pulled] record
    the jobs ever put on and ever taken off the job queue, in that
    order. *)
Record State : Type := mkState {
  job_queue : Queue.t Job;
  response_queue : Queue.t (Job * Resp);
  exc_queue : Queue.t (Job * Exn);
  workers : list Worker;
  submitted : list Job;
  pulled : list Job
}.

(** Modelled from the spec: one atomic action of worker [i] in the loop of
    [thread.SessionThread]: a non-blocking pull (the job, or the
    observation that the queue is empty), the execution of the held job
    with its outcome pushed to the success or the failure queue, or the
    exit of a draining worker.  A terminated worker has no action. *)
Definition worker_act (i : nat) (s : State) : option State :=
  match workers s !! i with
  | None => None
  | Some w =>
      match phase w with
      | Running None =>
          match Queue.get_nowait (job_queue s) with
          | (inr r, q') =>
              Some (mkState q' (response_queue s) (exc_queue s)
                      (<[i := mkWorker (client w) (Running (Some r))]>
                         (workers s))
                      (submitted s) (pulled s ++ [r]))
          | (inl Queue.EmptyExn, _) =>
              Some (mkState (job_queue s) (response_queue s) (exc_queue s)
                      (<[i := mkWorker (client w) Draining]> (workers s))
                      (submitted s) (pulled s))
          end
      | Running (Some r) =>
          match execute (client w) r with
          | (c', inl response) =>
              Some (mkState (job_queue s)
                      (Queue.put (r, response) (response_queue s))
                      (exc_queue s)
                      (<[i := mkWorker c' (Running None)]> (workers s))
                      (submitted s) (pulled s))
          | (c', inr error) =>
              Some (mkState (job_queue s) (response_queue s)
                      (Queue.put (r, error) (exc_queue s))
                      (<[i := mkWorker c' (Running None)]> (workers s))
                      (submitted s) (pulled s))
          end
      | Draining =>
          Some (mkState (job_queue s) (response_queue s) (exc_queue s)
                  (<[i := mkWorker (client w) Terminated]> (workers s))
                  (submitted s) (pulled s))
      | Terminated => None
      end
  end.

(** The caller puts one more job on the job queue. *)
Definition submit (r : Job) (s : State) : State :=
  mkState (Queue.put r (job_queue s)) (response_queue s) (exc_queue s)
    (workers s) (submitted s ++ [r]) (pulled s).

Inductive Action : Type :=
| Work (i : nat)
| Submit (r : Job).

Definition is_work (a : Action) : bool :=
  match a with
  | Work _ => true
  | Submit _ => false
  end.

Definition act (a : Action) (s : State) : option State :=
  match a with
  | Work i => worker_act i s
  | Submit r => Some (submit r s)
  end.

(** An interleaving, action by action. *)
Fixpoint run (schedule : list Action) (s : State) : option State :=
  match schedule with
  | [] => Some s
  | a :: schedule' =>
      match act a s with
      | Some s' => run schedule' s'
      | None => None
      end
  end.

Definition terminated (w : Worker) : bool :=
  match phase w with
  | Terminated => true
  | _ => false
  end.

(** [join_all] returns once every worker thread has terminated. *)
Definition joined (s : State) : bool := forallb terminated (workers s).

Definition outcomes (s : State) : nat :=
  (length (response_queue s) + length (exc_queue s))%nat.

(** The request descriptions of the outcomes pushed so far. *)
Definition outcome_requests (s : State) : list Job :=
  map fst (response_queue s) ++ map fst (exc_queue s).

(** Jobs pulled whose outcome is not yet pushed. *)
Definition held (w : Worker) : list Job :=
  match phase w with
  | Running (Some r) => [r]
  | _ => []
  end.

Definition in_flight (s : State) : list Job := flat_map held (workers s).

(** A worker that has seen the job queue empty. *)
Definition left (w : Worker) : bool :=
  match phase w with
  | Running _ => false
  | _ => true
  end.

Definition weight (w : Worker) : nat :=
  match phase w with
  | Running (Some _) => 3
  | Running None => 2
  | Draining => 1
  | Terminated => 0
  end.

(** A bound on the number of worker actions still possible. *)
Definition measure (s : State) : nat :=
  (2 * length (job_queue s) + sum_list_with weight (workers s))%nat.

(** The histories: what was pulled, followed by what is still queued, is
    what was submitted; the outcomes and the jobs in hand are what was
    pulled. *)
Definition accounted (s : State) : Prop :=
  pulled s ++ job_queue s = submitted s /\
  outcome_requests s ++ in_flight s ≡ₚ pulled s.

(** Once a worker has seen the job queue empty, it is empty. *)
Definition exhausted (s : State) : Prop :=
  existsb left (workers s) = true -> job_queue s = [].

(** Every worker has seen the job queue empty: nobody pulls any more. *)
Definition all_left (s : State) : bool := forallb left (workers s).

(** The jobs that a schedule, run from [s], submits while some worker has
    not yet seen the job queue empty, in the order of submission. *)
Fixpoint timely (schedule : list Action) (s : State) : list Job :=
  match schedule with
  | [] => []
  | a :: schedule' =>
      match act a s with
      | Some s' =>
          match a with
          | Submit r =>
              if all_left s then timely schedule' s'
              else r :: timely schedule' s'
          | Work _ => timely schedule' s'
          end
      | None => []
      end
  end.

(** The jobs that a schedule, run from [s], submits after every worker has
    seen the job queue empty, in the order of submission. *)
Fixpoint late (schedule : list Action) (s : State) : list Job :=
  match schedule with
  | [] => []
  | a :: schedule' =>
      match act a s with
      | Some s' =>
          match a with
          | Submit r =>
              if all_left s then r :: late schedule' s'
              else late schedule' s'
          | Work _ => late schedule' s'
          end
      | None => []
      end
  end.

(** The system a freshly constructed pool starts: its job queue as
    handed over, empty outcome queues, one running worker per session
    thread, each with the client built for it. *)
Definition start (p : Pool Client Job Resp Exn) : State :=
  mkState (_job_queue p) (_response_queue p) (_exc_queue p)
    (map (fun t => mkWorker (thread_session t) (Running None)) (_pool p))
    (_job_queue p) [].

End System.
End Workers.

(** * Properties *)

Lemma Queue_put_all {A B : Type} (f : B -> A) (l : list B) (q : Queue.t A) :
  fold_left (fun acc x => Queue.put (f x) acc) l q = q ++ map f l.
Proof.
  revert q. induction l as [|x l IH]; intros q; simpl.
  - by rewrite app_nil_r.
  - rewrite IH. unfold Queue.put. by rewrite <- app_assoc.
Qed.

Lemma bind_inr {A B : Type} (c : M A) (k : A -> M B) w x w' :
  c w = (inr x, w') -> bind c k w = k x w'.
Proof. intros Hc. unfold bind. by rewrite Hc. Qed.

(** ** Construction *)
Section PoolInitFacts.

Context {Client Job Resp Exn : Type}.
Variable cpu_count : Z.

Implicit Types (w : World) (session : nat -> Client).

Lemma build_thread (init auth : Client -> Client) session w :
  (s <- _new_session init auth session ;; start_thread s) w =
  (inr (mkSessionThread (auth (init (session (session_calls w))))),
   mkWorld (heap w) (S (session_calls w)) (S (threads_started w))).
Proof. reflexivity. Qed.

(** The clients the comprehension of [__init__] builds from world [w]. *)
Lemma build_threads n (init auth : Client -> Client) session w :
  repeatM n (s <- _new_session init auth session ;; start_thread s) w =
  (inr (map (fun k => mkSessionThread
                        (auth (init (session (session_calls w + k)%nat))))
            (seq 0 n)),
   mkWorld (heap w) (session_calls w + n) (threads_started w + n)).
Proof.
  revert w. induction n as [|n IH]; intros w.
  - simpl. unfold ret. destruct w as [h c t]; simpl.
    by rewrite !Nat.add_0_r.
  - cbn [repeatM]. erewrite bind_inr by apply build_thread.
    erewrite bind_inr by apply IH. unfold ret.
    cbn [heap session_calls threads_started]. f_equal.
    + f_equal. cbn [seq map]. rewrite Nat.add_0_r. f_equal.
      rewrite <- seq_shift, map_map. apply map_ext. intros k.
      do 4 f_equal. lia.
    + f_equal; lia.
Qed.

Lemma Pool_init_ok (job_queue : Queue.t Job) initializer auth_generator
    num_processes session w :
  1 <= default_processes cpu_count num_processes ->
  Pool_init (Resp := Resp) (Exn := Exn) cpu_count job_queue initializer
    auth_generator num_processes session w =
  (inr (mkPool job_queue Queue.new Queue.new
          (default_processes cpu_count num_processes)
          (or_identity initializer) (or_identity auth_generator) session
          (map (fun k => mkSessionThread
                  (or_identity auth_generator
                     (or_identity initializer
                        (session (session_calls w + k)%nat))))
             (seq 0 (Z.to_nat (default_processes cpu_count num_processes))))),
   mkWorld (heap w)
     (session_calls w + Z.to_nat (default_processes cpu_count num_processes))
     (threads_started w
      + Z.to_nat (default_processes cpu_count num_processes))).
Proof.
  intros Hn. unfold Pool_init.
  destruct (Z.ltb_spec (default_processes cpu_count num_processes) 1);
    [lia|].
  erewrite bind_inr by apply build_threads. reflexivity.
Qed.

Lemma Pool_init_error (job_queue : Queue.t Job) initializer auth_generator
    num_processes session w :
  default_processes cpu_count num_processes < 1 ->
  Pool_init (Resp := Resp) (Exn := Exn) cpu_count job_queue initializer
    auth_generator num_processes session w =
  (inl (ValueError "Number of processes should at least be 1."), w).
Proof.
  intros Hn. unfold Pool_init.
  destruct (Z.ltb_spec (default_processes cpu_count num_processes) 1);
    [reflexivity|lia].
Qed.

End PoolInitFacts.

(** ** The non-blocking getters and the generators *)
Section DrainFacts.

Context {Client Job Resp Exn : Type}.

Implicit Types (self : Pool Client Job Resp Exn).

Lemma set_response_queue_id self :
  set_response_queue (_response_queue self) self = self.
Proof. by destruct self. Qed.

Lemma set_exc_queue_id self :
  set_exc_queue (_exc_queue self) self = self.
Proof. by destruct self. Qed.

Lemma get_response_empty self :
  get_response (set_response_queue [] self) =
  (None, set_response_queue [] self).
Proof. reflexivity. Qed.

Lemma get_response_front x q self :
  get_response (set_response_queue (x :: q) self) =
  (Some (ThreadResponse.from_queue x), set_response_queue q self).
Proof. reflexivity. Qed.

Lemma get_exception_empty self :
  get_exception (set_exc_queue [] self) = (None, set_exc_queue [] self).
Proof. reflexivity. Qed.

Lemma get_exception_front x q self :
  get_exception (set_exc_queue (x :: q) self) =
  (Some (ThreadException.from_queue x), set_exc_queue q self).
Proof. reflexivity. Qed.

(** A getter that answered [None] without changing the pool keeps doing
    so. *)
Lemma call_repeatedly_stuck {A : Type}
    (get : Pool Client Job Resp Exn -> option A * Pool Client Job Resp Exn)
    self n :
  get self = (None, self) ->
  call_repeatedly get n self = (replicate n None, self).
Proof.
  intros Hget. induction n as [|n IH]; simpl; [done|].
  by rewrite Hget, IH.
Qed.

Section Generators.

Context {A B : Type}.
Variable get :
  Pool Client Job Resp Exn -> option A * Pool Client Job Resp Exn.
Variable queue_of : Pool Client Job Resp Exn -> Queue.t B.
Variable set_queue :
  Queue.t B -> Pool Client Job Resp Exn -> Pool Client Job Resp Exn.
Variable wrap : B -> A.

Hypothesis get_empty : forall self,
  get (set_queue [] self) = (None, set_queue [] self).
Hypothesis get_front : forall x q self,
  get (set_queue (x :: q) self) = (Some (wrap x), set_queue q self).

Lemma iterate_drains q self extra :
  iterate (generator_next get) (S (length q) + extra) Suspended
    (set_queue q self) =
  Some (map wrap q, Finished, set_queue [] self).
Proof.
  induction q as [|x q IH].
  - cbn [iterate length Nat.add generator_next]. by rewrite get_empty.
  - change (S (length (x :: q)) + extra)%nat
      with (S (S (length q) + extra)).
    remember (S (length q) + extra)%nat as fuel.
    cbn [iterate generator_next]. by rewrite get_front, IH.
Qed.

Lemma iterate_short q self fuel :
  (fuel <= length q)%nat ->
  iterate (generator_next get) fuel Suspended (set_queue q self) = None.
Proof.
  revert q. induction fuel as [|fuel IH]; intros q Hle; [done|].
  destruct q as [|x q]; simpl in Hle; [lia|].
  cbn [iterate generator_next]. rewrite get_front, IH; [done|lia].
Qed.

Lemma take_next_prefix q1 q2 self :
  take_next (generator_next get) (length q1) Suspended
    (set_queue (q1 ++ q2) self) =
  (map (fun x => Some (wrap x)) q1, Suspended, set_queue q2 self).
Proof.
  induction q1 as [|x q1 IH]; cbn [take_next length app map]; [done|].
  cbn [generator_next]. by rewrite get_front, IH.
Qed.

Lemma take_next_finished n self :
  take_next (generator_next get) n Finished self =
  (replicate n None, Finished, self).
Proof.
  induction n as [|n IH]; cbn [take_next replicate]; [done|].
  cbn [generator_next]. by rewrite IH.
Qed.

End Generators.

End DrainFacts.

Section PoolClaims.

Context {Client Job Resp Exn : Type}.
Variable cpu_count : Z.

Implicit Types (self : Pool Client Job Resp Exn) (w : World).

(** C5: [get_response] and [get_exception] are non-blocking pops.  On an
    empty queue any number of calls in a row each return [None], without
    raising, and leave the pool as it is; on a non-empty queue a call
    removes the front element and returns it wrapped as a
    [ThreadResponse], respectively a [ThreadException]. *)
Theorem getters_are_nonblocking_pops self n
    (x : Job * Resp) (q : Queue.t (Job * Resp))
    (y : Job * Exn) (r : Queue.t (Job * Exn)) :
  call_repeatedly get_response n (set_response_queue [] self) =
    (replicate n None, set_response_queue [] self) /\
  call_repeatedly get_exception n (set_exc_queue [] self) =
    (replicate n None, set_exc_queue [] self) /\
  get_response (set_response_queue (x :: q) self) =
    (Some (ThreadResponse.init x.1 x.2), set_response_queue q self) /\
  get_exception (set_exc_queue (y :: r) self) =
    (Some (ThreadException.init y.1 y.2), set_exc_queue r self).
Proof.
  repeat split.
  - apply call_repeatedly_stuck, get_response_empty.
  - apply call_repeatedly_stuck, get_exception_empty.
  - by destruct x.
  - by destruct y.
Qed.

(** C6: [responses()] and [exceptions()] are lazy, finite, one-shot
    drains.  Creating the generator pops nothing; each [next()] does one
    non-blocking pop, so the first items come out in queue order with the
    rest still queued; iterating to the end, with nobody else touching the
    queue, yields exactly the wrapped outcomes that were queued, in FIFO
    order, and leaves the queue empty; the generator finishes at the first
    pop that finds the queue empty and stays finished afterwards. *)
Theorem generators_drain_in_order self extra n
    (q q1 q2 : Queue.t (Job * Resp)) (e e1 e2 : Queue.t (Job * Exn)) :
  (responses self = Suspended /\ exceptions self = Suspended) /\
  iterate responses_next (S (length q) + extra) (responses self)
      (set_response_queue q self) =
    Some (map ThreadResponse.from_queue q, Finished,
          set_response_queue [] self) /\
  iterate exceptions_next (S (length e) + extra) (exceptions self)
      (set_exc_queue e self) =
    Some (map ThreadException.from_queue e, Finished,
          set_exc_queue [] self) /\
  take_next responses_next (length q1) (responses self)
      (set_response_queue (q1 ++ q2) self) =
    (map (fun x => Some (ThreadResponse.from_queue x)) q1, Suspended,
     set_response_queue q2 self) /\
  take_next exceptions_next (length e1) (exceptions self)
      (set_exc_queue (e1 ++ e2) self) =
    (map (fun x => Some (ThreadException.from_queue x)) e1, Suspended,
     set_exc_queue e2 self) /\
  responses_next Suspended (set_response_queue [] self) =
    (None, Finished, set_response_queue [] self) /\
  exceptions_next Suspended (set_exc_queue [] self) =
    (None, Finished, set_exc_queue [] self) /\
  take_next responses_next n Finished self =
    (replicate n None, Finished, self) /\
  take_next exceptions_next n Finished self =
    (replicate n None, Finished, self).
Proof.
  split; [done|]. unfold responses, exceptions.
  split; [|split; [|split; [|split; [|split; [|split; [|split]]]]]].
  - apply (iterate_drains get_response set_response_queue
             ThreadResponse.from_queue); auto using get_response_front.
  - apply (iterate_drains get_exception set_exc_queue
             ThreadException.from_queue); auto using get_exception_front.
  - apply (take_next_prefix get_response set_response_queue
             ThreadResponse.from_queue); auto using get_response_front.
  - apply (take_next_prefix get_exception set_exc_queue
             ThreadException.from_queue); auto using get_exception_front.
  - reflexivity.
  - reflexivity.
  - apply take_next_finished.
  - apply take_next_finished.
Qed.

(** C4: [Pool.from_exceptions] puts on a new job queue exactly the
    [request_kwargs] of the supplied [ThreadException]s, in their order,
    and hands that queue with the remaining arguments to the [Pool]
    constructor, whose result (the pool holding that queue, or the
    constructor's error) it returns. *)
Theorem from_exceptions_replays_requests
    (exceptions : list (ThreadException.t Job Exn))
    initializer auth_generator num_processes (session : nat -> Client) w :
  from_exceptions (Resp := Resp) cpu_count exceptions initializer
    auth_generator num_processes session w =
  Pool_init cpu_count (map ThreadException.request_kwargs exceptions)
    initializer auth_generator num_processes session w /\
  match (from_exceptions (Resp := Resp) cpu_count exceptions initializer
           auth_generator num_processes session w).1 with
  | inr p =>
      _job_queue p = map ThreadException.request_kwargs exceptions /\
      length (_job_queue p) = length exceptions
  | inl e => default_processes cpu_count num_processes < 1
  end.
Proof.
  assert (Heq :
    from_exceptions (Resp := Resp) cpu_count exceptions initializer
      auth_generator num_processes session w =
    Pool_init cpu_count (map ThreadException.request_kwargs exceptions)
      initializer auth_generator num_processes session w).
  { unfold from_exceptions.
    rewrite (Queue_put_all ThreadException.request_kwargs). reflexivity. }
  split; [exact Heq|]. rewrite Heq.
  destruct (Z.lt_ge_cases (default_processes cpu_count num_processes) 1)
    as [Hlt|Hge].
  - by rewrite Pool_init_error.
  - rewrite Pool_init_ok by lia. cbn [fst _job_queue].
    by rewrite length_map.
Qed.

(** C2: a supplied worker count below 1 makes the constructor raise
    [ValueError] at once, with no session built and no thread started;
    with no count supplied the count is the machine's [cpu_count()], or 1
    when that is 0, and the constructor succeeds with that many
    workers. *)
Theorem Pool_init_validates_worker_count (job_queue : Queue.t Job)
    initializer auth_generator (session : nat -> Client) w n
    (Hn : n < 1) (Hcpu : 0 <= cpu_count) :
  Pool_init (Resp := Resp) (Exn := Exn) cpu_count job_queue initializer
      auth_generator (Some n) session w =
    (inl (ValueError "Number of processes should at least be 1."), w) /\
  exists p w',
    Pool_init (Resp := Resp) (Exn := Exn) cpu_count job_queue initializer
      auth_generator None session w = (inr p, w') /\
    _processes p = Z.max cpu_count 1 /\
    length (_pool p) = Z.to_nat (Z.max cpu_count 1) /\
    threads_started w' =
      (threads_started w + Z.to_nat (Z.max cpu_count 1))%nat.
Proof.
  split; [by apply Pool_init_error|].
  assert (Hd : default_processes cpu_count None = Z.max cpu_count 1).
  { unfold default_processes. destruct (Z.eqb_spec cpu_count 0); lia. }
  eexists _, _. rewrite Pool_init_ok by (rewrite Hd; lia).
  split; [reflexivity|]. cbn [_processes _pool threads_started].
  rewrite length_map, length_seq, Hd. auto.
Qed.


End PoolClaims.

(** ** [Pool.from_urls] *)
Section FromUrlsFacts.

Implicit Types (w : World) (d : gmap string PyVal).

Lemma new_dict_eq d w :
  new_dict d w =
  (inr (fresh (dom (heap w))),
   set_heap (<[fresh (dom (heap w)) := d]> (heap w)) w).
Proof. reflexivity. Qed.

Lemma fresh_loc_not_allocated w l d :
  heap w !! l = Some d -> l ≠ fresh (dom (heap w)).
Proof.
  intros Hl ->. apply (is_fresh (dom (heap w))).
  apply elem_of_dom. eauto.
Qed.

(** One round of the loop of [from_urls]: the copy of the template is a
    new object, and it alone is written. *)
Lemma enqueue_job request_dict template url (job_queue : Queue.t loc) w :
  heap w !! request_dict = Some template ->
  (job <- dict_copy request_dict ;;
   _ <- dict_update_display job {["url"%string := url]} ;;
   ret (Queue.put job job_queue)) w =
  (inr (job_queue ++ [fresh (dom (heap w))]),
   set_heap (<[fresh (dom (heap w)) := <["url"%string := url]> template]>
               (heap w)) w).
Proof.
  intros Ht.
  erewrite bind_inr; last first.
  { unfold dict_copy. rewrite Ht. apply new_dict_eq. }
  erewrite bind_inr; last first.
  { unfold dict_update_display. cbn [heap set_heap].
    rewrite lookup_insert_eq. reflexivity. }
  unfold ret, Queue.put, set_heap. cbn [heap session_calls threads_started].
  rewrite insert_insert_eq, <- insert_union_singleton_l. reflexivity.
Qed.

Lemma fill_job_queue request_dict template urls :
  forall (job_queue : Queue.t loc) w,
    heap w !! request_dict = Some template ->
    exists jobs w',
      for_each urls
        (fun url job_queue =>
           job <- dict_copy request_dict ;;
           _ <- dict_update_display job {["url"%string := url]} ;;
           ret (Queue.put job job_queue))
        job_queue w = (inr (job_queue ++ jobs), w') /\
      Forall2 (fun job url =>
                 heap w' !! job = Some (<["url"%string := url]> template))
        jobs urls /\
      (forall l, l ∈ dom (heap w) -> heap w' !! l = heap w !! l) /\
      Forall (fun job => job ∉ dom (heap w)) jobs /\
      NoDup jobs /\
      session_calls w' = session_calls w /\
      threads_started w' = threads_started w.
Proof.
  induction urls as [|url urls IH]; intros job_queue w Ht.
  - exists [], w. cbn [for_each]. unfold ret. rewrite app_nil_r.
    repeat split; auto; constructor.
  - set (job := fresh (dom (heap w))).
    set (w1 := set_heap (<[job := <["url"%string := url]> template]>
                           (heap w)) w).
    assert (Hne : request_dict ≠ job)
      by (eapply fresh_loc_not_allocated; eauto).
    assert (Hfresh : job ∉ dom (heap w)) by apply is_fresh.
    destruct (IH (job_queue ++ [job]) w1) as
      (jobs & w' & Hrun & Hjobs & Hframe & Hnew & Hnodup & Hs & Ht').
    { unfold w1. cbn [heap set_heap]. by rewrite lookup_insert_ne. }
    assert (Hdom : dom (heap w1) = {[job]} ∪ dom (heap w)).
    { unfold w1. cbn [heap set_heap]. by rewrite dom_insert_L. }
    assert (Hold : forall l, l ∈ dom (heap w) -> l ∈ dom (heap w1))
      by (intros l Hl; rewrite Hdom; by apply elem_of_union_r).
    assert (Hjob : job ∈ dom (heap w1))
      by (rewrite Hdom; by apply elem_of_union_l, elem_of_singleton_2).
    exists (job :: jobs), w'. cbn [for_each].
    erewrite bind_inr by (by apply enqueue_job).
    fold job. fold w1. rewrite Hrun, <- app_assoc.
    split; [done|]. split; [|split; [|split; [|split]]].
    + constructor; [|done]. rewrite Hframe by done.
      unfold w1. cbn [heap set_heap]. by rewrite lookup_insert_eq.
    + intros l Hl. rewrite Hframe by auto.
      unfold w1. cbn [heap set_heap]. rewrite lookup_insert_ne; [done|].
      intros ->. done.
    + constructor; [done|].
      eapply Forall_impl; [exact Hnew|]. intros l Hl Hl'. auto.
    + constructor; [|done]. intros Hin.
      rewrite Forall_forall in Hnew. by apply (Hnew _ Hin).
    + by rewrite Hs, Ht'.
Qed.

(** The job queue of [from_urls], from a world in which [request_kwargs]
    refers to the dict [kw]. *)
Lemma from_urls_queue_spec urls request_kwargs kw w :
  heap w !! request_kwargs = Some kw ->
  exists jobs w',
    from_urls_queue urls request_kwargs w = (inr jobs, w') /\
    Forall2 (fun job url => heap w' !! job = Some (expected_job kw url))
      jobs urls /\
    (forall l, l ∈ dom (heap w) -> heap w' !! l = heap w !! l) /\
    Forall (fun job => job ∉ dom (heap w)) jobs /\
    (fresh (dom (heap w)) ∉ jobs) /\
    NoDup jobs /\
    session_calls w' = session_calls w /\
    threads_started w' = threads_started w /\
    heap w' !! fresh (dom (heap w)) =
      Some (kw ∪ {["method"%string := VStr "GET"]}).
Proof.
  intros Hkw. unfold from_urls_queue.
  set (request_dict := fresh (dom (heap w))).
  set (d0 := {["method"%string := VStr "GET"]} : gmap string PyVal).
  assert (Hne : request_kwargs ≠ request_dict)
    by (eapply fresh_loc_not_allocated; eauto).
  erewrite bind_inr by apply new_dict_eq. fold request_dict.
  set (w1 := set_heap (<[request_dict := d0]> (heap w)) w).
  set (w2 := set_heap (<[request_dict := kw ∪ d0]> (heap w)) w).
  erewrite (bind_inr _ _ w1 tt w2); last first.
  { unfold dict_update, w1, w2. cbn [heap set_heap].
    rewrite lookup_insert_eq, lookup_insert_ne, Hkw by done.
    unfold set_heap. cbn [heap session_calls threads_started].
    by rewrite insert_insert_eq. }
  destruct (fill_job_queue request_dict (kw ∪ d0) urls Queue.new w2)
    as (jobs & w' & Hrun & Hjobs & Hframe & Hnew & Hnodup & Hs & Ht).
  { unfold w2. cbn [heap set_heap]. by rewrite lookup_insert_eq. }
  assert (Hdom : dom (heap w2) = {[request_dict]} ∪ dom (heap w)).
  { unfold w2. cbn [heap set_heap]. by rewrite dom_insert_L. }
  assert (Hold : forall l, l ∈ dom (heap w) -> l ∈ dom (heap w2))
    by (intros l Hl; rewrite Hdom; by apply elem_of_union_r).
  assert (Htemplate : request_dict ∈ dom (heap w2))
    by (rewrite Hdom; by apply elem_of_union_l, elem_of_singleton_2).
  exists jobs, w'. split; [exact Hrun|].
  split; [exact Hjobs|]. split; [|split; [|split; [|split; [|split; [|split]]]]].
  - intros l Hl. rewrite Hframe by auto.
    unfold w2. cbn [heap set_heap]. rewrite lookup_insert_ne; [done|].
    intros <-. by apply (is_fresh (dom (heap w))).
  - eapply Forall_impl; [exact Hnew|]. intros l Hl Hl'. auto.
  - intros Hin. rewrite Forall_forall in Hnew. by apply (Hnew _ Hin).
  - done.
  - done.
  - done.
  - rewrite Hframe by done.
    unfold w2. cbn [heap set_heap]. by rewrite lookup_insert_eq.
Qed.

Lemma expected_job_url kw url :
  expected_job kw url !! "url"%string = Some url.
Proof. unfold expected_job. by rewrite lookup_insert_eq. Qed.

Lemma expected_job_other kw url key :
  key ≠ "url"%string ->
  expected_job kw url !! key =
  match kw !! key with
  | Some v => Some v
  | None => if decide (key = "method"%string)
            then Some (VStr "GET") else None
  end.
Proof.
  intros Hkey. unfold expected_job.
  rewrite lookup_insert_ne by done. rewrite lookup_union.
  destruct (kw !! key) as [v|] eqn:Hk.
  - by destruct ({[ "method"%string := VStr "GET" ]} !! key).
  - rewrite left_id by apply _. case_decide as Hm.
    + subst key. by rewrite lookup_singleton_eq.
    + by rewrite lookup_singleton_ne.
Qed.

End FromUrlsFacts.

Section FromUrlsClaims.

Context {Client Resp Exn : Type}.
Variable cpu_count : Z.

Implicit Types (w : World) (session : nat -> Client).

Lemma Pool_init_heap {Job : Type} (job_queue : Queue.t Job) initializer
    auth_generator num_processes session w :
  heap (Pool_init (Resp := Resp) (Exn := Exn) cpu_count job_queue
          initializer auth_generator num_processes session w).2 = heap w.
Proof.
  destruct (Z.lt_ge_cases (default_processes cpu_count num_processes) 1).
  - by rewrite Pool_init_error.
  - by rewrite Pool_init_ok by lia.
Qed.

(** C3: from a world in which [request_kwargs] is a dict, [from_urls]
    enqueues one job per URL, in the order of the URLs; the job for a URL
    is [{'method': 'GET'}] updated with [request_kwargs] and then with
    [{'url': url}], so its [url] entry is that URL and every other entry
    is the one of [request_kwargs] when it has one, else the [GET]
    default for [method]; the queue then goes to the constructor. *)
Theorem from_urls_enqueues_a_job_per_url (urls : list PyVal)
    (request_kwargs : loc) (kw : gmap string PyVal)
    initializer auth_generator num_processes session w
    (Hkw : heap w !! request_kwargs = Some kw) :
  exists jobs w1,
    from_urls_queue urls request_kwargs w = (inr jobs, w1) /\
    from_urls (Resp := Resp) (Exn := Exn) cpu_count urls request_kwargs
      initializer auth_generator num_processes session w =
    Pool_init cpu_count jobs initializer auth_generator num_processes
      session w1 /\
    length jobs = length urls /\
    Forall2 (fun job url => heap w1 !! job = Some (expected_job kw url))
      jobs urls /\
    (forall url key,
       expected_job kw url !! key =
       if decide (key = "url"%string) then Some url
       else match kw !! key with
            | Some v => Some v
            | None => if decide (key = "method"%string)
                      then Some (VStr "GET") else None
            end) /\
    match from_urls (Resp := Resp) (Exn := Exn) cpu_count urls
            request_kwargs initializer auth_generator num_processes
            session w with
    | (inr p, w') => _job_queue p = jobs /\ heap w' = heap w1
    | (inl e, w') =>
        default_processes cpu_count num_processes < 1 /\ heap w' = heap w1
    end.
Proof.
  destruct (from_urls_queue_spec urls request_kwargs kw w Hkw)
    as (jobs & w1 & Hrun & Hjobs & _).
  assert (Heq :
    from_urls (Resp := Resp) (Exn := Exn) cpu_count urls request_kwargs
      initializer auth_generator num_processes session w =
    Pool_init cpu_count jobs initializer auth_generator num_processes
      session w1)
    by (unfold from_urls; by erewrite bind_inr by exact Hrun).
  exists jobs, w1. split; [done|]. split; [done|].
  split; [by eapply Forall2_length|]. split; [done|]. split.
  - intros url key. case_decide as Hkey.
    + subst key. apply expected_job_url.
    + by apply expected_job_other.
  - rewrite Heq.
    destruct (Z.lt_ge_cases (default_processes cpu_count num_processes) 1).
    + by rewrite Pool_init_error.
    + by rewrite Pool_init_ok by lia.
Qed.

(** C9: [from_urls] writes to no dict that existed before the call, so
    the caller's [request_kwargs] keeps its entries.  Each enqueued job is
    a copy of the merged template ([{'method': 'GET'}] updated with
    [request_kwargs]) with the [url] entry set to its URL, one job per URL.
    The jobs are pairwise distinct objects, all new, none of them
    [request_kwargs] or the template; hence replacing the entries of one
    job, or those of [request_kwargs] after the call, changes no other
    enqueued job. *)
Theorem from_urls_jobs_are_independent_copies (urls : list PyVal)
    (request_kwargs : loc) (kw : gmap string PyVal)
    initializer auth_generator num_processes session w
    (Hkw : heap w !! request_kwargs = Some kw) :
  exists jobs w1,
    from_urls_queue urls request_kwargs w = (inr jobs, w1) /\
    heap (from_urls (Resp := Resp) (Exn := Exn) cpu_count urls
            request_kwargs initializer auth_generator num_processes
            session w).2 = heap w1 /\
    (forall l, l ∈ dom (heap w) -> heap w1 !! l = heap w !! l) /\
    heap w1 !! request_kwargs = Some kw /\
    (exists template,
       template = kw ∪ {["method"%string := VStr "GET"]} /\
       heap w1 !! fresh (dom (heap w)) = Some template /\
       length jobs = length urls /\
       Forall2 (fun job url =>
                  heap w1 !! job = Some (<["url"%string := url]> template) /\
                  forall key d,
                    heap w1 !! job = Some d -> key ≠ "url"%string ->
                    d !! key = template !! key)
         jobs urls) /\
    NoDup jobs /\
    Forall (fun job => job ∉ dom (heap w)) jobs /\
    (request_kwargs ∉ jobs) /\
    (fresh (dom (heap w)) ∉ jobs) /\
    (forall i j a b d,
       i ≠ j -> jobs !! i = Some a -> jobs !! j = Some b ->
       <[a := d]> (heap w1) !! b = heap w1 !! b) /\
    (forall job d,
       job ∈ jobs ->
       <[request_kwargs := d]> (heap w1) !! job = heap w1 !! job).
Proof.
  destruct (from_urls_queue_spec urls request_kwargs kw w Hkw)
    as (jobs & w1 & Hrun & Hjobs & Hframe & Hnew & Htemplate & Hnodup
        & _ & _ & Hmerged).
  assert (Hrk : request_kwargs ∈ dom (heap w))
    by (apply elem_of_dom; eauto).
  assert (Hnotin : request_kwargs ∉ jobs).
  { intros Hin. rewrite Forall_forall in Hnew. by apply (Hnew _ Hin). }
  exists jobs, w1. split; [done|]. split.
  { unfold from_urls. erewrite bind_inr by exact Hrun.
    apply Pool_init_heap. }
  split; [done|]. split; [by rewrite Hframe|]. split.
  { exists (kw ∪ {["method"%string := VStr "GET"]}).
    split; [done|]. split; [done|]. split; [by eapply Forall2_length|].
    eapply Forall2_impl; [exact Hjobs|]. intros job url Hjob.
    split; [exact Hjob|]. intros key d Hd Hkey.
    rewrite Hjob in Hd. injection Hd as <-.
    unfold expected_job. by rewrite lookup_insert_ne. }
  split; [done|].
  split; [done|]. split; [done|]. split; [done|]. split.
  - intros i j a b d Hij Ha Hb. apply lookup_insert_ne. intros ->.
    apply Hij. by eapply NoDup_lookup.
  - intros job d Hin. apply lookup_insert_ne. by intros ->.
Qed.

End FromUrlsClaims.

(** ** Attribute access on [ThreadResponse] and [ThreadException] *)
Section ProxyFacts.

Context {Job Resp Exn Value : Type}.
Context `{PyObject Value Resp} `{PyObject Value Exn}.
Variable builtin_attr : string -> bool.

Import ThreadProxy.

(** A name the type resolves is not the name of an instance field. *)
Lemma type_lookup_not_field c name a :
  c ≠ ThreadProxyC ->
  type_lookup builtin_attr c name = Some a ->
  String.eqb name "request_kwargs" = false /\
  String.eqb name "response" = false /\
  String.eqb name "exception" = false.
Proof.
  intros Hc Hlook.
  repeat split; apply String.eqb_neq; intros ->;
    destruct c; try done; vm_compute in Hlook; discriminate.
Qed.

Lemma getattr_class_value {Obj : Type} `{PyObject Value Obj}
    (self : @Instance Job Obj Value) name a :
  inst_dict self name = None ->
  type_lookup builtin_attr (inst_class self) name = Some a ->
  getattr builtin_attr self name = inr (ClassValue a).
Proof.
  intros Hd Ht. unfold getattr, object_getattribute. by rewrite Hd, Ht.
Qed.

Lemma response_getattr_forwards (self : ThreadResponse.t Job Resp) name :
  existsb (String.eqb name) ["request_kwargs"; "response"]%string = false ->
  type_lookup builtin_attr ThreadResponseC name = None ->
  getattr builtin_attr (ThreadResponse.instance self) name =
  forwarded (py_getattr (ThreadResponse.response self) name).
Proof.
  intros Hfield Hclass. cbn [existsb] in Hfield.
  apply orb_false_elim in Hfield as [Hkw Hfield].
  apply orb_false_elim in Hfield as [Hresp _].
  unfold getattr, object_getattribute at 1.
  cbn [ThreadResponse.instance inst_dict inst_class].
  rewrite Hkw, Hresp, Hclass. unfold __getattr__.
  change (object_getattribute builtin_attr (ThreadResponse.instance self)
            "attrs")
    with (inr (B := @AttrValue Job Resp Value)
            (A := PyError)
            (ClassValue (Attrs ["request_kwargs"; "response"]%string))).
  cbn [existsb]. rewrite Hkw, Hresp. cbn [orb negb].
  reflexivity.
Qed.

Lemma exception_getattr_forwards (self : ThreadException.t Job Exn) name :
  existsb (String.eqb name) ["request_kwargs"; "exception"]%string = false ->
  type_lookup builtin_attr ThreadExceptionC name = None ->
  getattr builtin_attr (ThreadException.instance self) name =
  forwarded (py_getattr (ThreadException.exception self) name).
Proof.
  intros Hfield Hclass. cbn [existsb] in Hfield.
  apply orb_false_elim in Hfield as [Hkw Hfield].
  apply orb_false_elim in Hfield as [Hexc _].
  unfold getattr, object_getattribute at 1.
  cbn [ThreadException.instance inst_dict inst_class].
  rewrite Hkw, Hexc, Hclass. unfold __getattr__.
  change (object_getattribute builtin_attr (ThreadException.instance self)
            "attrs")
    with (inr (B := @AttrValue Job Exn Value)
            (A := PyError)
            (ClassValue (Attrs ["request_kwargs"; "exception"]%string))).
  cbn [existsb]. rewrite Hkw, Hexc. cbn [orb negb].
  reflexivity.
Qed.

(** C7: a wrapper built from a queue pair holds that pair and nothing
    else.  Reading one of its two fixed fields gives the stored request
    description, respectively the stored response or exception, as it
    is; reading any other name that the wrapper's own class hierarchy
    does not define is forwarded to the wrapped response, respectively
    exception, whose answer (value or error) is the answer. *)
Theorem wrapper_forwards_unknown_attributes
    (r : Job) (o : Resp) (e : Exn) (name name' : string)
    (Hfield :
       existsb (String.eqb name) ["request_kwargs"; "response"]%string
       = false)
    (Hclass : type_lookup builtin_attr ThreadResponseC name = None)
    (Hfield' :
       existsb (String.eqb name') ["request_kwargs"; "exception"]%string
       = false)
    (Hclass' : type_lookup builtin_attr ThreadExceptionC name' = None) :
  let resp := ThreadResponse.from_queue (r, o) in
  let exc := ThreadException.from_queue (r, e) in
  (resp = ThreadResponse.init r o /\ exc = ThreadException.init r e) /\
  getattr builtin_attr (ThreadResponse.instance resp) "request_kwargs" =
    inr (StoredRequest r) /\
  getattr builtin_attr (ThreadResponse.instance resp) "response" =
    inr (StoredObject o) /\
  getattr builtin_attr (ThreadResponse.instance resp) name =
    forwarded (py_getattr o name) /\
  getattr builtin_attr (ThreadException.instance exc) "request_kwargs" =
    inr (StoredRequest r) /\
  getattr builtin_attr (ThreadException.instance exc) "exception" =
    inr (StoredObject e) /\
  getattr builtin_attr (ThreadException.instance exc) name' =
    forwarded (py_getattr e name').
Proof.
  intros resp exc. split; [done|].
  split; [done|]. split; [done|].
  split; [by apply response_getattr_forwards|].
  split; [done|]. split; [done|].
  by apply exception_getattr_forwards.
Qed.

(** C10: a name that the wrapper's class hierarchy defines resolves to
    that class attribute, whatever the wrapped object is, and is never
    forwarded; this is so for [from_queue], [proxied_attr] and [attrs]. *)
Theorem class_attributes_are_not_forwarded
    (resp : ThreadResponse.t Job Resp) (exc : ThreadException.t Job Exn)
    (name : string) (a a' : ClassAttr)
    (Hresp : type_lookup builtin_attr ThreadResponseC name = Some a)
    (Hexc : type_lookup builtin_attr ThreadExceptionC name = Some a') :
  (getattr builtin_attr (ThreadResponse.instance resp) name =
     inr (ClassValue a) /\
   getattr builtin_attr (ThreadException.instance exc) name =
     inr (ClassValue a')) /\
  (forall v : Value,
     getattr builtin_attr (ThreadResponse.instance resp) name
       ≠ inr (Forwarded v) /\
     getattr builtin_attr (ThreadException.instance exc) name
       ≠ inr (Forwarded v)) /\
  (type_lookup builtin_attr ThreadResponseC "from_queue" =
     Some (Method ThreadProxyC "from_queue") /\
   type_lookup builtin_attr ThreadResponseC "proxied_attr" =
     Some (ProxiedAttr (Some "response"%string)) /\
   type_lookup builtin_attr ThreadResponseC "attrs" =
     Some (Attrs ["request_kwargs"; "response"]%string)) /\
  (type_lookup builtin_attr ThreadExceptionC "from_queue" =
     Some (Method ThreadProxyC "from_queue") /\
   type_lookup builtin_attr ThreadExceptionC "proxied_attr" =
     Some (ProxiedAttr (Some "exception"%string)) /\
   type_lookup builtin_attr ThreadExceptionC "attrs" =
     Some (Attrs ["request_kwargs"; "exception"]%string)).
Proof.
  destruct (type_lookup_not_field ThreadResponseC name a ltac:(done) Hresp)
    as (Hkw & Hr & He).
  assert (Hgr : getattr builtin_attr (ThreadResponse.instance resp) name =
                inr (ClassValue a)).
  { apply getattr_class_value; [|done].
    cbn [ThreadResponse.instance inst_dict]. by rewrite Hkw, Hr. }
  assert (Hge : getattr builtin_attr (ThreadException.instance exc) name =
                inr (ClassValue a')).
  { apply getattr_class_value; [|done].
    cbn [ThreadException.instance inst_dict]. by rewrite Hkw, He. }
  split; [done|]. split; [|by repeat split].
  intros v. rewrite Hgr, Hge. split; discriminate.
Qed.

End ProxyFacts.

(** ** The workers: every pulled job gives one outcome *)
Section WorkerFacts.

Context {Client Job Resp Exn : Type}.
Variable execute : Client -> Job -> Client * (Resp + Exn).

Import Workers.

Implicit Types (s : @State Client Job Resp Exn) (w : @Worker Client Job).
Implicit Types (l : list (@Worker Client Job)).

(** Case analysis on one action of worker [i]. *)
Ltac worker_cases H w Hw :=
  unfold worker_act in H;
  match type of H with
  | context [workers ?s !! ?i] =>
      destruct (workers s !! i) as [w|] eqn:Hw; [|discriminate H];
      destruct w as [?c [[?r|]| |]]; cbn [phase client] in H;
      [ destruct (execute _ _) as [?c' [?response|?error]] eqn:?Hexec
      | destruct (job_queue s) as [|?r ?q] eqn:?Hqueue;
        cbn [Queue.get_nowait] in H
      | | discriminate H ];
      injection H as <-;
      cbn [job_queue response_queue exc_queue workers submitted pulled]
  end.

Lemma weight_insert (f : @Worker Client Job -> nat) l i w w' :
  l !! i = Some w ->
  (sum_list_with f (<[i := w']> l) + f w = sum_list_with f l + f w')%nat.
Proof.
  revert i. induction l as [|x l IH]; intros [|i] Hi; try done.
  - injection Hi as ->. simpl. lia.
  - simpl in *. specialize (IH i Hi). lia.
Qed.

Lemma held_insert l i w w' :
  l !! i = Some w ->
  flat_map held (<[i := w']> l) ++ held w ≡ₚ flat_map held l ++ held w'.
Proof.
  revert i. induction l as [|x l IH]; intros [|i] Hi; try done.
  - injection Hi as ->. simpl. solve_Permutation.
  - simpl in *. rewrite <- !app_assoc. f_equiv. by apply IH.
Qed.

Lemma left_insert l i w' :
  existsb left (<[i := w']> l) = true ->
  left w' = true \/ existsb left l = true.
Proof.
  revert i. induction l as [|x l IH]; intros [|i]; simpl; try done.
  - intros [->| ->]%orb_true_iff; auto using orb_true_r.
  - intros [->|Hl]%orb_true_iff; [by right|].
    destruct (IH i Hl) as [?| ->]; auto using orb_true_r.
Qed.

Lemma left_lookup l i w :
  l !! i = Some w -> left w = true -> existsb left l = true.
Proof.
  revert i. induction l as [|x l IH]; intros [|i] Hi Hw; try done.
  - injection Hi as ->. simpl. by rewrite Hw.
  - simpl in *. rewrite (IH i Hi Hw). apply orb_true_r.
Qed.

Lemma not_joined_lookup l :
  forallb terminated l = false ->
  exists i w, l !! i = Some w /\ terminated w = false.
Proof.
  induction l as [|x l IH]; simpl; [done|].
  destruct (terminated x) eqn:Hx.
  - intros Hl. destruct (IH Hl) as (i & w & Hi & Hw).
    by exists (S i), w.
  - intros _. by exists 0%nat, x.
Qed.

Lemma joined_nothing_held l :
  forallb terminated l = true -> flat_map held l = [].
Proof.
  induction l as [|x l IH]; simpl; [done|].
  intros [Hx Hl]%andb_true_iff. rewrite (IH Hl).
  unfold terminated in Hx. unfold held. by destruct (phase x).
Qed.

Lemma joined_all_left l :
  l ≠ [] -> forallb terminated l = true -> existsb left l = true.
Proof.
  destruct l as [|x l]; [done|]. simpl.
  intros _ [Hx _]%andb_true_iff.
  unfold terminated in Hx. unfold left. by destruct (phase x).
Qed.

Lemma act_accounted a s s' :
  act execute a s = Some s' -> accounted s -> accounted s'.
Proof.
  unfold accounted, outcome_requests, in_flight.
  destruct a as [i|r]; cbn [act]; intros Hact [Hq Hp].
  - worker_cases Hact w Hw; unfold Queue.put;
      match goal with
      | |- context [<[_ := ?w']> _] =>
          pose proof (held_insert _ _ _ w' Hw) as Hl
      end;
      unfold held in Hl; cbn [phase] in Hl; rewrite ?app_nil_r in Hl.
    + split; [done|]. rewrite <- Hp, <- Hl, map_app. cbn [map fst].
      solve_Permutation.
    + split; [done|]. rewrite <- Hp, <- Hl, map_app. cbn [map fst].
      solve_Permutation.
    + split; [done|]. by rewrite Hl.
    + split; [by rewrite <- app_assoc|].
      rewrite Hl, <- Hp. solve_Permutation.
    + split; [done|]. by rewrite Hl.
  - injection Hact as <-. cbn. unfold Queue.put.
    split; [by rewrite app_assoc, Hq|done].
Qed.

Lemma worker_act_exhausted i s s' :
  worker_act execute i s = Some s' -> exhausted s -> exhausted s'.
Proof.
  unfold exhausted. intros Hact Hs.
  worker_cases Hact w Hw; intros Hleft; try done.
  - apply left_insert in Hleft as [?|?]; [done|auto].
  - apply left_insert in Hleft as [?|?]; [done|auto].
  - apply left_insert in Hleft as [?|Hleft]; [done|].
    by specialize (Hs Hleft).
  - apply Hs. by eapply left_lookup.
Qed.

Lemma worker_act_submitted i s s' :
  worker_act execute i s = Some s' -> submitted s' = submitted s.
Proof. intros Hact. by worker_cases Hact w Hw. Qed.

Lemma worker_act_workers i s s' :
  worker_act execute i s = Some s' ->
  length (workers s') = length (workers s).
Proof.
  intros Hact. worker_cases Hact w Hw; apply length_insert.
Qed.

(** Every action of a worker uses up some of the measure. *)
Lemma worker_act_measure i s s' :
  worker_act execute i s = Some s' -> (measure s' < measure s)%nat.
Proof.
  unfold measure. intros Hact.
  worker_cases Hact w Hw;
    match goal with
    | |- context [<[_ := ?w']> _] =>
        pose proof (weight_insert weight _ _ _ w' Hw) as Hl
    end;
    unfold weight in Hl at 2 4; cbn [phase length] in Hl |- *; lia.
Qed.

(** A worker that has not terminated can act. *)
Lemma worker_progress s :
  joined s = false -> exists i s', worker_act execute i s = Some s'.
Proof.
  intros Hj. apply not_joined_lookup in Hj as (i & w & Hi & Hw).
  exists i. unfold worker_act. rewrite Hi.
  destruct w as [c [[r|]| |]]; cbn [phase client]; try done.
  - destruct (execute c r) as [c' [response|error]]; eauto.
  - destruct (job_queue s) as [|r q]; cbn [Queue.get_nowait]; eauto.
  - eauto.
Qed.

Lemma run_accounted sched s s' :
  run execute sched s = Some s' -> accounted s -> accounted s'.
Proof.
  revert s. induction sched as [|a sched IH]; intros s; cbn [run].
  - by intros [= <-].
  - destruct (act execute a s) as [s1|] eqn:Hact; [|done].
    eauto using act_accounted.
Qed.

(** What holds along an interleaving of worker actions alone. *)
Lemma run_workers_only sched s s' :
  forallb is_work sched = true ->
  run execute sched s = Some s' ->
  (exhausted s -> exhausted s') /\
  submitted s' = submitted s /\
  length (workers s') = length (workers s) /\
  (length sched + measure s' <= measure s)%nat.
Proof.
  revert s. induction sched as [|a sched IH]; intros s; cbn [run forallb].
  - intros _ [= <-]. repeat split; auto; simpl; lia.
  - intros [Ha Hsched]%andb_true_iff.
    destruct a as [i|r]; [|done]. cbn [act].
    destruct (worker_act execute i s) as [s1|] eqn:Hact; [|done].
    intros Hrun. destruct (IH s1 Hsched Hrun) as (He & Hs & Hw & Hm).
    pose proof (worker_act_measure _ _ _ Hact).
    repeat split.
    + eauto using worker_act_exhausted.
    + rewrite Hs. eauto using worker_act_submitted.
    + rewrite Hw. eauto using worker_act_workers.
    + cbn [length]. lia.
Qed.

(** The workers left to themselves all terminate. *)
Lemma workers_terminate n : forall s,
  (measure s <= n)%nat ->
  exists sched s',
    forallb is_work sched = true /\
    run execute sched s = Some s' /\
    joined s' = true.
Proof.
  induction n as [|n IH]; intros s Hn.
  - destruct (joined s) eqn:Hj; [by exists [], s|].
    destruct (worker_progress s Hj) as (i & s1 & Hact).
    pose proof (worker_act_measure _ _ _ Hact). lia.
  - destruct (joined s) eqn:Hj; [by exists [], s|].
    destruct (worker_progress s Hj) as (i & s1 & Hact).
    pose proof (worker_act_measure _ _ _ Hact).
    destruct (IH s1) as (sched & s' & Hw & Hrun & Hj'); [lia|].
    exists (Work i :: sched), s'. cbn [forallb is_work run act].
    by rewrite Hact.
Qed.

(** When all workers have terminated, the outcomes are the pulled jobs. *)
Lemma joined_outcomes s :
  accounted s -> joined s = true -> outcome_requests s ≡ₚ pulled s.
Proof.
  intros [_ Hp] Hj. unfold in_flight in Hp.
  by rewrite (joined_nothing_held _ Hj), app_nil_r in Hp.
Qed.

Lemma outcomes_length s :
  outcomes s = length (outcome_requests s).
Proof.
  unfold outcomes, outcome_requests. by rewrite length_app, !length_map.
Qed.

Lemma start_accounted (p : Pool Client Job Resp Exn) :
  _response_queue p = [] -> _exc_queue p = [] -> accounted (start p).
Proof.
  intros Hr He. unfold accounted, start, outcome_requests, in_flight.
  cbn [job_queue response_queue exc_queue workers submitted pulled].
  rewrite Hr, He. split; [done|]. simpl.
  induction (_pool p) as [|t l IH]; [done|]. simpl. exact IH.
Qed.

Lemma start_exhausted (p : Pool Client Job Resp Exn) : exhausted (start p).
Proof.
  unfold exhausted, start. cbn [workers job_queue].
  induction (_pool p) as [|t l IH]; simpl; [done|]. exact IH.
Qed.

Lemma forallb_insert_new {A : Type} (f : A -> bool) (l : list A) i x y :
  l !! i = Some x -> forallb f (<[i := y]> l) = true -> f y = true.
Proof.
  revert i. induction l as [|z l IH]; intros [|i] Hi; simpl; try done.
  - by intros [? _]%andb_true_iff.
  - intros [_ Hl]%andb_true_iff. by eapply IH.
Qed.

Lemma forallb_insert_old {A : Type} (f : A -> bool) (l : list A) i x y :
  l !! i = Some x -> f x = true ->
  forallb f (<[i := y]> l) = true -> forallb f l = true.
Proof.
  revert i. induction l as [|z l IH]; intros [|i] Hi Hx; simpl; try done.
  - injection Hi as ->. intros [_ ->]%andb_true_iff. by rewrite Hx.
  - intros [-> Hl]%andb_true_iff. simpl in Hi. by erewrite IH.
Qed.

Lemma forallb_insert_keep {A : Type} (f : A -> bool) (l : list A) i y :
  forallb f l = true -> f y = true -> forallb f (<[i := y]> l) = true.
Proof.
  revert i. induction l as [|z l IH]; intros [|i]; simpl; try done.
  - intros [_ ->]%andb_true_iff ->. done.
  - intros [-> Hl]%andb_true_iff Hy. by rewrite IH.
Qed.

Lemma forallb_lookup {A : Type} (f : A -> bool) (l : list A) i x :
  forallb f l = true -> l !! i = Some x -> f x = true.
Proof.
  revert i. induction l as [|z l IH]; intros [|i]; simpl; try done.
  - by intros [? _]%andb_true_iff [= <-].
  - intros [_ Hl]%andb_true_iff Hi. by eapply IH.
Qed.

Lemma joined_all_left_state s : joined s = true -> all_left s = true.
Proof.
  unfold joined, all_left. induction (workers s) as [|w l IH]; simpl; [done|].
  intros [Hw Hl]%andb_true_iff. rewrite (IH Hl), andb_true_r.
  unfold terminated in Hw. unfold left. by destruct (phase w).
Qed.

(** Once every worker has left, a worker can only exit: the queues and
    the histories stay as they are. *)
Lemma worker_act_after_all_left i s s' :
  all_left s = true ->
  worker_act execute i s = Some s' ->
  all_left s' = true /\
  job_queue s' = job_queue s /\
  submitted s' = submitted s /\
  pulled s' = pulled s.
Proof.
  unfold all_left. intros Hleft Hact.
  worker_cases Hact w Hw;
    pose proof (forallb_lookup _ _ _ _ Hleft Hw) as Hw'; try done.
  repeat split. by apply forallb_insert_keep.
Qed.

(** The worker that leaves last does so on finding the job queue empty. *)
Lemma worker_act_last_to_leave i s s' :
  all_left s = false ->
  worker_act execute i s = Some s' ->
  all_left s' = true ->
  job_queue s' = [].
Proof.
  unfold all_left. intros Hsome Hact.
  worker_cases Hact w Hw; intros Hleft; try done;
    try (by apply (forallb_insert_new _ _ _ _ _ Hw) in Hleft).
  apply (forallb_insert_old _ _ _ _ _ Hw) in Hleft; [|done].
  by rewrite Hleft in Hsome.
Qed.

(** After every worker has left, all that a schedule submits is late and
    stays on the job queue. *)
Lemma run_after_all_left sched : forall s s',
  all_left s = true ->
  run execute sched s = Some s' ->
  all_left s' = true /\
  timely execute sched s = [] /\
  job_queue s' = job_queue s ++ late execute sched s /\
  submitted s' = submitted s ++ late execute sched s /\
  pulled s' = pulled s.
Proof.
  induction sched as [|a sched IH]; intros s s' Hleft; cbn [run timely late].
  - intros [= <-]. by rewrite !app_nil_r.
  - destruct (act execute a s) as [s1|] eqn:Hact; [|done]. intros Hrun.
    destruct a as [i|r]; cbn [act] in Hact.
    + destruct (worker_act_after_all_left _ _ _ Hleft Hact)
        as (Hleft1 & Hq & Hs & Hp).
      destruct (IH s1 s' Hleft1 Hrun) as (? & ? & Hq' & Hs' & Hp').
      by rewrite Hq', Hs', Hp', Hq, Hs, Hp.
    + injection Hact as <-. rewrite Hleft.
      destruct (IH (submit r s) s' Hleft Hrun) as (? & ? & Hq' & Hs' & Hp').
      rewrite Hq', Hs', Hp'. unfold submit, Queue.put.
      cbn [job_queue submitted pulled]. by rewrite <- !app_assoc.
Qed.

(** The submissions of a schedule, in order, are the timely ones followed
    by the late ones; the late ones are what is on the job queue once
    every worker has left, and there are none before. *)
Lemma run_submissions sched : forall s s',
  run execute sched s = Some s' ->
  submitted s' =
    submitted s ++ timely execute sched s ++ late execute sched s /\
  (all_left s = false -> all_left s' = true ->
   job_queue s' = late execute sched s) /\
  (all_left s' = false -> late execute sched s = []).
Proof.
  induction sched as [|a sched IH]; intros s s'; cbn [run timely late].
  - intros [= <-]. rewrite !app_nil_r. repeat split; congruence.
  - destruct (act execute a s) as [s1|] eqn:Hact; [|done]. intros Hrun.
    destruct (all_left s) eqn:Hleft.
    { assert (Hrun' : run execute (a :: sched) s = Some s')
        by (cbn [run]; by rewrite Hact).
      destruct (run_after_all_left (a :: sched) s s' Hleft Hrun')
        as (Hleft' & Ht & _ & Hs & _).
      cbn [timely late] in Ht, Hs. rewrite Hact, ?Hleft in Ht, Hs.
      split; [|split; [done|congruence]].
      destruct a; by rewrite Ht. }
    destruct (IH s1 s' Hrun) as (Hs & Hq & Hnone).
    destruct a as [i|r]; cbn [act] in Hact.
    + rewrite Hs, (worker_act_submitted _ _ _ Hact).
      split; [done|]. split; [|done]. intros _ Hleft'.
      destruct (all_left s1) eqn:Hleft1; [|by apply Hq].
      destruct (run_after_all_left sched s1 s' Hleft1 Hrun)
        as (_ & _ & Hq' & _).
      by rewrite Hq', (worker_act_last_to_leave _ _ _ Hleft Hact Hleft1).
    + injection Hact as <-. rewrite Hs. unfold submit at 1.
      cbn [submitted]. rewrite <- !app_assoc.
      split; [done|]. split; [|done]. intros _ Hleft'. by apply Hq.
Qed.

(** A schedule of worker actions submits nothing. *)
Lemma workers_only_submit_nothing sched : forall s,
  forallb is_work sched = true ->
  timely execute sched s = [] /\ late execute sched s = [].
Proof.
  induction sched as [|a sched IH]; intros s; cbn [forallb timely late];
    [done|].
  intros [Ha Hsched]%andb_true_iff. destruct a as [i|r]; [|done].
  destruct (act execute (Work i) s); [by apply IH|done].
Qed.

Lemma start_not_all_left (p : Pool Client Job Resp Exn) :
  _pool p ≠ [] -> all_left (start p) = false.
Proof.
  unfold all_left, start. cbn [workers]. by destruct (_pool p).
Qed.

End WorkerFacts.

Section WorkerClaims.

Context {Client Job Resp Exn : Type}.
Variable execute : Client -> Job -> Client * (Resp + Exn).
Variable cpu_count : Z.

Import Workers.

(** C1 (amended): the jobs that get an outcome are the jobs [J] on the job
    queue when the pool is constructed together with the jobs submitted
    while some worker has not yet found the queue empty.  After
    [join_all] returns, the outcomes in the success and failure queues
    are, up to order, exactly these jobs, one outcome per job, so their
    number is the number of these jobs, which is the number of jobs of [J]
    when nothing is submitted later.  A job submitted after every worker
    has found the queue empty is never pulled: from then on the job queue
    holds exactly the jobs submitted since, and the pulled jobs stay what
    they were.  At every moment the pulled jobs followed by the queued
    ones are the submitted ones, and each pulled job is either still in a
    worker's hand or has exactly one outcome.  From every state the
    workers left to themselves terminate. *)
Theorem every_timely_job_has_one_outcome (J : Queue.t Job)
    initializer auth_generator num_processes (session : nat -> Client) w
    (Hn : 1 <= default_processes cpu_count num_processes) :
  exists p w',
    Pool_init cpu_count J initializer auth_generator num_processes
      session w = (inr p, w') /\
    (forall sched s,
       run execute sched (start p) = Some s ->
       let on_time := timely execute sched (start p) in
       let too_late := late execute sched (start p) in
       submitted s = J ++ on_time ++ too_late /\
       pulled s ++ job_queue s = submitted s /\
       outcome_requests s ++ in_flight s ≡ₚ pulled s /\
       (all_left s = false -> too_late = []) /\
       (all_left s = true ->
        job_queue s = too_late /\ pulled s = J ++ on_time) /\
       (joined s = true ->
        job_queue s = too_late /\
        outcome_requests s ≡ₚ J ++ on_time /\
        outcomes s = (length J + length on_time)%nat) /\
       exists sched' s',
         forallb is_work sched' = true /\
         run execute sched' s = Some s' /\
         joined s' = true) /\
    (forall sched s,
       forallb is_work sched = true ->
       run execute sched (start p) = Some s ->
       (length sched <= measure (start p))%nat /\
       (joined s = true ->
        job_queue s = [] /\
        outcome_requests s ≡ₚ J /\
        outcomes s = length J)).
Proof.
  eexists _, _. rewrite Pool_init_ok by done. split; [reflexivity|].
  match goal with |- context [start ?p0] => set (p := p0) end.
  assert (Hacc : accounted (start p)) by by apply start_accounted.
  assert (Hpool : _pool p ≠ []).
  { unfold p. cbn [_pool]. intros Hnil%(f_equal length).
    rewrite length_map, length_seq in Hnil. simpl in Hnil. lia. }
  pose proof (start_not_all_left p Hpool) as Hstart.
  assert (Hall : forall sched s,
    run execute sched (start p) = Some s ->
    submitted s =
      J ++ timely execute sched (start p) ++ late execute sched (start p) /\
    (all_left s = false -> late execute sched (start p) = []) /\
    (all_left s = true ->
     job_queue s = late execute sched (start p) /\
     pulled s = J ++ timely execute sched (start p))).
  { intros sched s Hrun.
    destruct (run_submissions execute sched _ _ Hrun) as (Hs & Hq & Hnone).
    pose proof (run_accounted execute _ _ _ Hrun Hacc) as [Hpq _].
    split; [exact Hs|]. split; [exact Hnone|]. intros Hleft.
    specialize (Hq Hstart Hleft). split; [exact Hq|].
    rewrite Hq, Hs in Hpq. change (submitted (start p)) with J in Hpq.
    rewrite (app_assoc J) in Hpq. by apply app_inv_tail in Hpq. }
  split.
  - intros sched s Hrun. cbv zeta.
    destruct (Hall sched s Hrun) as (Hs & Hnone & Hleft).
    pose proof (run_accounted execute _ _ _ Hrun Hacc) as [Hq Hp].
    split; [exact Hs|]. split; [exact Hq|]. split; [exact Hp|].
    split; [exact Hnone|]. split; [exact Hleft|]. split.
    + intros Hj.
      destruct (Hleft (joined_all_left_state s Hj)) as [Hqueue Hpulled].
      pose proof (joined_outcomes s (conj Hq Hp) Hj) as Hout.
      rewrite Hpulled in Hout. split; [exact Hqueue|]. split; [exact Hout|].
      by rewrite outcomes_length, Hout, length_app.
    + by apply (workers_terminate execute (measure s)).
  - intros sched s Hwork Hrun.
    destruct (run_workers_only execute _ _ _ Hwork Hrun)
      as (_ & _ & _ & Hm).
    destruct (workers_only_submit_nothing execute sched (start p) Hwork)
      as [Htimely Hlate].
    destruct (Hall sched s Hrun) as (_ & _ & Hleft).
    pose proof (run_accounted execute _ _ _ Hrun Hacc) as [Hq Hp].
    split; [lia|]. intros Hj.
    destruct (Hleft (joined_all_left_state s Hj)) as [Hqueue Hpulled].
    rewrite Hlate in Hqueue. rewrite Htimely, app_nil_r in Hpulled.
    pose proof (joined_outcomes s (conj Hq Hp) Hj) as Hout.
    rewrite Hpulled in Hout.
    split; [exact Hqueue|]. split; [exact Hout|].
    by rewrite outcomes_length, Hout.
Qed.

End WorkerClaims.

(** C1 as stated fails: a job put on the job queue after the only worker
    has found the queue empty and terminated, but before [join_all], is
    never pulled; [join_all] returns with one job submitted and no
    outcome. *)
Lemma job_submitted_after_workers_left_has_no_outcome :
  let execute := fun (c : unit) (r : nat) => (c, inl tt : unit + unit) in
  let p :=
    mkPool [] [] [] 1 _identity _identity (fun _ => tt)
      [mkSessionThread tt] in
  let s :=
    Workers.mkState [7%nat] [] [] [Workers.mkWorker tt Workers.Terminated]
      [7%nat] [] in
  Pool_init 1 [] None None (Some 1) (fun _ => tt) (mkWorld ∅ 0 0) =
    (inr p, mkWorld ∅ 1 1) /\
  Workers.run execute
    [Workers.Work 0; Workers.Work 0; Workers.Submit 7%nat]
    (Workers.start p) = Some s /\
  Workers.joined s = true /\
  Workers.submitted s = [7%nat] /\
  Workers.outcomes s = 0%nat /\
  Workers.outcomes s ≠ length (Workers.submitted s).
Proof. repeat split. discriminate. Qed.

(** C7 as stated fails: [attrs] is not one of the two fixed fields, yet
    reading it on a [ThreadResponse] gives the wrapper's own class
    attribute, not the [attrs] attribute of the wrapped response. *)
Lemma own_class_attribute_is_not_forwarded :
  let response_object : PyObject nat unit :=
    fun _ name =>
      if String.eqb name "attrs" then inr 1%nat else inl AttributeError in
  let resp := ThreadResponse.from_queue (tt, tt) in
  existsb (String.eqb "attrs") ["request_kwargs"; "response"]%string = false /\
  @ThreadProxy.getattr unit unit nat response_object (fun _ => false)
    (ThreadResponse.instance resp) "attrs" =
    inr (ThreadProxy.ClassValue (Attrs ["request_kwargs"; "response"]%string)) /\
  @ThreadProxy.forwarded unit unit nat (response_object tt "attrs") =
    inr (ThreadProxy.Forwarded 1%nat) /\
  @ThreadProxy.getattr unit unit nat response_object (fun _ => false)
    (ThreadResponse.instance resp) "attrs" ≠
  @ThreadProxy.forwarded unit unit nat (response_object tt "attrs").
Proof. repeat split. discriminate. Qed.


(** ** Worked instances *)

Lemma Pool_init_validates_worker_count_witness :
  Pool_init (Client := nat) (Job := nat) (Resp := unit) (Exn := unit)
      4 [] None None (Some 0) (fun k => k) (mkWorld ∅ 0 0) =
    (inl (ValueError "Number of processes should at least be 1."),
     mkWorld ∅ 0 0) /\
  exists p w',
    Pool_init (Client := nat) (Job := nat) (Resp := unit) (Exn := unit)
      4 [] None None None (fun k => k) (mkWorld ∅ 0 0) = (inr p, w') /\
    _processes p = Z.max 4 1 /\
    length (_pool p) = Z.to_nat (Z.max 4 1) /\
    threads_started w' = (0 + Z.to_nat (Z.max 4 1))%nat.
Proof.
  apply (Pool_init_validates_worker_count
           (Client := nat) (Job := nat) (Resp := unit) (Exn := unit)
           4 [] None None (fun k => k) (mkWorld ∅ 0 0) 0); lia.
Defined.


Lemma from_urls_enqueues_a_job_per_url_witness :
  let kw : gmap string PyVal :=
    {["method"%string := VStr "HEAD"; "url"%string := VStr "http://x"]} in
  let w := mkWorld {[5%positive := kw]} 0 0 in
  exists jobs w1,
    from_urls_queue [VStr "http://a"; VStr "http://b"] 5%positive w =
      (inr jobs, w1) /\
    length jobs = 2%nat /\
    Forall2 (fun job url => heap w1 !! job = Some (expected_job kw url))
      jobs [VStr "http://a"; VStr "http://b"] /\
    expected_job kw (VStr "http://a") !! "url"%string =
      Some (VStr "http://a") /\
    expected_job kw (VStr "http://a") !! "method"%string =
      Some (VStr "HEAD").
Proof.
  intros kw w.
  destruct (from_urls_enqueues_a_job_per_url
              (Client := nat) (Resp := unit) (Exn := unit)
              4 [VStr "http://a"; VStr "http://b"] 5%positive kw
              None None None (fun k => k) w ltac:(reflexivity))
    as (jobs & w1 & Hrun & _ & Hlen & Hjobs & Hkeys & _).
  exists jobs, w1. split; [exact Hrun|]. split; [exact Hlen|].
  split; [exact Hjobs|]. split.
  - exact (Hkeys (VStr "http://a") "url"%string).
  - exact (Hkeys (VStr "http://a") "method"%string).
Defined.

Lemma from_urls_jobs_are_independent_copies_witness :
  let kw : gmap string PyVal := {["verify"%string := VInt 0]} in
  let w := mkWorld {[5%positive := kw]} 0 0 in
  exists jobs w1,
    from_urls_queue [VStr "http://a"; VStr "http://b"] 5%positive w =
      (inr jobs, w1) /\
    heap w1 !! 5%positive = Some kw /\
    NoDup jobs /\
    (5%positive ∉ jobs).
Proof.
  intros kw w.
  destruct (from_urls_jobs_are_independent_copies
              (Client := nat) (Resp := unit) (Exn := unit)
              4 [VStr "http://a"; VStr "http://b"] 5%positive kw
              None None None (fun k => k) w ltac:(reflexivity))
    as (jobs & w1 & Hrun & _ & _ & Hkw & _ & Hnodup & _ & Hnotin & _).
  exists jobs, w1. split; [exact Hrun|]. split; [exact Hkw|].
  split; [exact Hnodup|exact Hnotin].
Defined.

Lemma wrapper_forwards_unknown_attributes_witness :
  let response_object : PyObject Z unit :=
    fun _ name =>
      if String.eqb name "status_code" then inr 200 else inl AttributeError in
  let exception_object : PyObject Z nat :=
    fun e name =>
      if String.eqb name "errno" then inr (Z.of_nat e)
      else inl AttributeError in
  let builtin_attr := fun name => String.eqb name "__class__" in
  @ThreadProxy.getattr nat unit Z response_object builtin_attr
    (ThreadResponse.instance (ThreadResponse.from_queue (3%nat, tt)))
    "status_code" = inr (ThreadProxy.Forwarded 200) /\
  @ThreadProxy.getattr nat nat Z exception_object builtin_attr
    (ThreadException.instance (ThreadException.from_queue (3%nat, 111%nat)))
    "errno" = inr (ThreadProxy.Forwarded 111) /\
  @ThreadProxy.getattr nat unit Z response_object builtin_attr
    (ThreadResponse.instance (ThreadResponse.from_queue (3%nat, tt)))
    "request_kwargs" = inr (ThreadProxy.StoredRequest 3%nat).
Proof.
  intros response_object exception_object builtin_attr.
  destruct (@wrapper_forwards_unknown_attributes nat unit nat Z
              response_object exception_object builtin_attr
              3%nat tt 111%nat "status_code" "errno"
              eq_refl eq_refl eq_refl eq_refl)
    as (_ & Hkw & _ & Hfwd & _ & _ & Hfwd').
  split; [exact Hfwd|]. split; [exact Hfwd'|exact Hkw].
Defined.

Lemma class_attributes_are_not_forwarded_witness :
  let wrapped : PyObject Z unit := fun _ name => inr 7 in
  let builtin_attr := fun name => String.eqb name "__class__" in
  @ThreadProxy.getattr nat unit Z wrapped builtin_attr
    (ThreadResponse.instance (ThreadResponse.init 3%nat tt)) "attrs" =
    inr (ThreadProxy.ClassValue (Attrs ["request_kwargs"; "response"]%string)) /\
  @ThreadProxy.getattr nat unit Z wrapped builtin_attr
    (ThreadException.instance (ThreadException.init 3%nat tt)) "attrs" =
    inr (ThreadProxy.ClassValue (Attrs ["request_kwargs"; "exception"]%string)).
Proof.
  intros wrapped builtin_attr.
  exact (proj1 (@class_attributes_are_not_forwarded nat unit unit Z
                  wrapped wrapped builtin_attr
                  (ThreadResponse.init 3%nat tt)
                  (ThreadException.init 3%nat tt) "attrs"
                  (Attrs ["request_kwargs"; "response"]%string)
                  (Attrs ["request_kwargs"; "exception"]%string)
                  eq_refl eq_refl)).
Defined.

Lemma every_timely_job_has_one_outcome_witness :
  let execute := fun (c r : nat) =>
    (S c, if Nat.even r then inl r else inr tt : nat + unit) in
  exists p w',
    Pool_init (Client := nat) (Job := nat) (Resp := nat) (Exn := unit)
      4 [1; 2; 3]%nat None None (Some 2) (fun k => k) (mkWorld ∅ 0 0) =
      (inr p, w') /\
    forall sched s,
      Workers.run execute sched (Workers.start p) = Some s ->
      Workers.joined s = true ->
      Workers.job_queue s = Workers.late execute sched (Workers.start p) /\
      Workers.outcomes s =
        (3 + length (Workers.timely execute sched (Workers.start p)))%nat.
Proof.
  intros execute.
  destruct (every_timely_job_has_one_outcome
              (Client := nat) (Job := nat) (Resp := nat) (Exn := unit)
              execute 4 [1; 2; 3]%nat None None (Some 2) (fun k => k)
              (mkWorld ∅ 0 0) ltac:(simpl; lia))
    as (p & w' & Hinit & Hall & _).
  exists p, w'. split; [exact Hinit|].
  intros sched s Hrun Hj.
  destruct (Hall sched s Hrun) as (_ & _ & _ & _ & _ & Hdone & _).
  destruct (Hdone Hj) as (Hqueue & _ & Hcount).
  split; [exact Hqueue|exact Hcount].
Defined.

(** * Further properties of the pool *)

Section MoreDrainFacts.

Context {Client Job Resp Exn : Type}.
Variable cpu_count : Z.

Implicit Types (self : Pool Client Job Resp Exn) (w : World).

Lemma responses_drain (q : Queue.t (Job * Resp)) self extra :
  iterate responses_next (S (length q) + extra) Suspended
    (set_response_queue q self) =
  Some (map ThreadResponse.from_queue q, Finished,
        set_response_queue [] self).
Proof.
  apply (iterate_drains get_response set_response_queue
           ThreadResponse.from_queue); auto using get_response_front.
Qed.

Lemma exceptions_drain (e : Queue.t (Job * Exn)) self extra :
  iterate exceptions_next (S (length e) + extra) Suspended
    (set_exc_queue e self) =
  Some (map ThreadException.from_queue e, Finished, set_exc_queue [] self).
Proof.
  apply (iterate_drains get_exception set_exc_queue
           ThreadException.from_queue); auto using get_exception_front.
Qed.

(** X1: the two getters do not interfere.  Each one leaves the other
    outcome queue, the job queue and the workers as they are, so calling
    them in either order returns the same response, the same exception and
    the same pool. *)
Theorem getters_commute self :
  (get_exception (get_response self).2).1 = (get_exception self).1 /\
  (get_response (get_exception self).2).1 = (get_response self).1 /\
  (get_exception (get_response self).2).2 =
    (get_response (get_exception self).2).2 /\
  (_exc_queue (get_response self).2 = _exc_queue self /\
   _job_queue (get_response self).2 = _job_queue self /\
   _pool (get_response self).2 = _pool self) /\
  (_response_queue (get_exception self).2 = _response_queue self /\
   _job_queue (get_exception self).2 = _job_queue self /\
   _pool (get_exception self).2 = _pool self).
Proof.
  destruct self as [jq rq eq n i a s p].
  destruct rq as [|x rq], eq as [|y eq]; repeat split.
Qed.

(** X2: draining the responses and then the exceptions, or the exceptions
    and then the responses, yields the same two lists and ends in the same
    pool: both outcome queues empty, the job queue and the workers
    untouched.  Together the two drains yield as many wrappers as the two
    queues held outcomes. *)
Theorem drains_commute self extra extra'
    (q : Queue.t (Job * Resp)) (e : Queue.t (Job * Exn)) :
  let p := set_response_queue q (set_exc_queue e self) in
  let done := set_response_queue [] (set_exc_queue [] self) in
  let rs := map ThreadResponse.from_queue q in
  let es := map ThreadException.from_queue e in
  (iterate responses_next (S (length q) + extra) (responses p) p =
     Some (rs, Finished, set_response_queue [] p) /\
   iterate exceptions_next (S (length e) + extra') (exceptions p)
     (set_response_queue [] p) = Some (es, Finished, done)) /\
  (iterate exceptions_next (S (length e) + extra') (exceptions p) p =
     Some (es, Finished, set_exc_queue [] p) /\
   iterate responses_next (S (length q) + extra) (responses p)
     (set_exc_queue [] p) = Some (rs, Finished, done)) /\
  (_job_queue done = _job_queue self /\ _pool done = _pool self) /\
  (length rs + length es = length q + length e)%nat.
Proof.
  cbv zeta. unfold responses, exceptions.
  split; [|split; [|split]].
  - split.
    + apply (responses_drain q (set_exc_queue e self)).
    + apply (exceptions_drain e (set_response_queue [] self)).
  - split.
    + apply (exceptions_drain e (set_response_queue q self)).
    + apply (responses_drain q (set_exc_queue [] self)).
  - done.
  - by rewrite !length_map.
Qed.

(** X3: two generators over the responses of one pool share its queue.
    What the first one has yielded is gone for the second, which yields the
    rest; after that the first one finds the queue empty and finishes.  So
    every queued outcome is yielded once, by one of them. *)
Theorem generators_share_the_queue self extra
    (q1 q2 : Queue.t (Job * Resp)) :
  let p := set_response_queue (q1 ++ q2) self in
  take_next responses_next (length q1) (responses p) p =
    (map (fun x => Some (ThreadResponse.from_queue x)) q1, Suspended,
     set_response_queue q2 self) /\
  iterate responses_next (S (length q2) + extra) (responses p)
    (set_response_queue q2 self) =
    Some (map ThreadResponse.from_queue q2, Finished,
          set_response_queue [] self) /\
  responses_next Suspended (set_response_queue [] self) =
    (None, Finished, set_response_queue [] self) /\
  map ThreadResponse.from_queue q1 ++ map ThreadResponse.from_queue q2 =
    map ThreadResponse.from_queue (q1 ++ q2).
Proof.
  cbv zeta. unfold responses. split; [|split; [|split]].
  - apply (take_next_prefix get_response set_response_queue
             ThreadResponse.from_queue); auto using get_response_front.
  - apply responses_drain.
  - reflexivity.
  - by rewrite map_app.
Qed.

(** X4: retrying the failures of a pool.  Iterating [exceptions()] to its
    end and handing what it yields to [from_exceptions] gives the
    constructor a job queue that holds the request descriptions of the
    queued failures, unchanged and in their order, and leaves the failure
    queue of the first pool empty; [from_exceptions] itself creates or
    changes no dict. *)
Theorem retry_replays_the_failure_queue self extra
    (e : Queue.t (Job * Exn))
    initializer auth_generator num_processes (session : nat -> Client) w :
  let p := set_exc_queue e self in
  let yielded := map ThreadException.from_queue e in
  iterate exceptions_next (S (length e) + extra) (exceptions p) p =
    Some (yielded, Finished, set_exc_queue [] self) /\
  from_exceptions (Resp := Resp) cpu_count yielded initializer
    auth_generator num_processes session w =
  Pool_init cpu_count (map fst e) initializer auth_generator num_processes
    session w /\
  heap (from_exceptions (Resp := Resp) cpu_count yielded initializer
          auth_generator num_processes session w).2 = heap w.
Proof.
  cbv zeta. unfold exceptions.
  set (yielded := map ThreadException.from_queue e).
  assert (Hjobs : map ThreadException.request_kwargs yielded = map fst e).
  { unfold yielded. rewrite map_map. apply map_ext. by intros [r x]. }
  assert (Heq :
    from_exceptions (Resp := Resp) cpu_count yielded initializer
      auth_generator num_processes session w =
    Pool_init cpu_count (map fst e) initializer auth_generator
      num_processes session w).
  { unfold from_exceptions.
    by rewrite (Queue_put_all ThreadException.request_kwargs), Hjobs. }
  split; [|split; [exact Heq|]].
  - apply exceptions_drain.
  - rewrite Heq. apply Pool_init_heap.
Qed.


(** X6: no two workers share a client, provided the session factory gives
    a different session at each call and the initializer and the auth
    generator keep different sessions different. *)
Theorem workers_have_distinct_clients (job_queue : Queue.t Job)
    initializer auth_generator num_processes (session : nat -> Client) w
    (Hsession : Inj (=) (=) session)
    (Hinit : Inj (=) (=) (or_identity initializer))
    (Hauth : Inj (=) (=) (or_identity auth_generator))
    (Hn : 1 <= default_processes cpu_count num_processes) :
  exists p w',
    Pool_init (Resp := Resp) (Exn := Exn) cpu_count job_queue initializer
      auth_generator num_processes session w = (inr p, w') /\
    NoDup (map thread_session (_pool p)).
Proof.
  eexists _, _. rewrite Pool_init_ok by done. split; [reflexivity|].
  cbn [_pool]. rewrite map_map. cbn [thread_session].
  set (client_of := fun k : nat =>
         or_identity auth_generator
           (or_identity initializer (session (session_calls w + k)%nat))).
  assert (Hclient : Inj (=) (=) client_of).
  { intros j k Hjk. apply Hauth, Hinit, Hsession in Hjk. lia. }
  apply (NoDup_fmap_2 client_of), NoDup_seq.
Qed.

(** A getter called again and again hands out the queue front to back and
    then keeps answering [None]. *)
Lemma call_repeatedly_drains {A B : Type}
    (get : Pool Client Job Resp Exn -> option A * Pool Client Job Resp Exn)
    (set_queue :
       Queue.t B -> Pool Client Job Resp Exn -> Pool Client Job Resp Exn)
    (wrap : B -> A) :
  (forall self, get (set_queue [] self) = (None, set_queue [] self)) ->
  (forall x q self,
     get (set_queue (x :: q) self) = (Some (wrap x), set_queue q self)) ->
  forall q self more,
    call_repeatedly get (length q + more) (set_queue q self) =
    (map (fun x => Some (wrap x)) q ++ replicate more None,
     set_queue [] self).
Proof.
  intros Hempty Hfront q self more. induction q as [|x q IH].
  - by apply call_repeatedly_stuck.
  - cbn [length Nat.add call_repeatedly]. by rewrite Hfront, IH.
Qed.

(** X13: polling.  Calling [get_response] over and over, with nobody else
    touching the queue, returns the queued responses wrapped, front to
    back, one per call, and from then on [None] at every call, leaving the
    queue empty; so the results before the first [None] are what iterating
    [responses()] yields.  The same holds for [get_exception] and
    [exceptions()]. *)
Theorem polling_yields_the_queue_then_None self more
    (q : Queue.t (Job * Resp)) (e : Queue.t (Job * Exn)) :
  call_repeatedly get_response (length q + more)
      (set_response_queue q self) =
    (map Some (map ThreadResponse.from_queue q) ++ replicate more None,
     set_response_queue [] self) /\
  call_repeatedly get_exception (length e + more) (set_exc_queue e self) =
    (map Some (map ThreadException.from_queue e) ++ replicate more None,
     set_exc_queue [] self) /\
  iterate responses_next (S (length q + more))
      (responses (set_response_queue q self)) (set_response_queue q self) =
    Some (map ThreadResponse.from_queue q, Finished,
          set_response_queue [] self) /\
  iterate exceptions_next (S (length e + more))
      (exceptions (set_exc_queue e self)) (set_exc_queue e self) =
    Some (map ThreadException.from_queue e, Finished,
          set_exc_queue [] self).
Proof.
  rewrite !map_map. split; [|split; [|split]].
  - apply (call_repeatedly_drains get_response set_response_queue
             ThreadResponse.from_queue);
      auto using get_response_empty, get_response_front.
  - apply (call_repeatedly_drains get_exception set_exc_queue
             ThreadException.from_queue);
      auto using get_exception_empty, get_exception_front.
  - apply (responses_drain q self more).
  - apply (exceptions_drain e self more).
Qed.

End MoreDrainFacts.

Section MoreFromUrlsFacts.

Context {Client Resp Exn : Type}.
Variable cpu_count : Z.

Implicit Types (w : World) (session : nat -> Client).

(** X7: the copies [from_urls] makes are shallow.  An entry of
    [request_kwargs] under a key other than [url] is in every enqueued job
    with the very same value; when that value is a reference to another
    object (a dict of headers, say), all jobs and [request_kwargs] refer to
    that one object, which [from_urls] neither copies nor changes. *)
Theorem from_urls_copies_are_shallow (urls : list PyVal)
    (request_kwargs : loc) (kw : gmap string PyVal) (key : string)
    (v : PyVal) w
    (Hkw : heap w !! request_kwargs = Some kw)
    (Hentry : kw !! key = Some v)
    (Hkey : key ≠ "url"%string) :
  exists jobs w1,
    from_urls_queue urls request_kwargs w = (inr jobs, w1) /\
    Forall (fun job =>
              exists d, heap w1 !! job = Some d /\ d !! key = Some v) jobs /\
    (exists d, heap w1 !! request_kwargs = Some d /\ d !! key = Some v) /\
    (forall l nested,
       v = VRef l -> heap w !! l = Some nested ->
       heap w1 !! l = Some nested /\ (l ∉ jobs)).
Proof.
  destruct (from_urls_queue_spec urls request_kwargs kw w Hkw)
    as (jobs & w1 & Hrun & Hjobs & Hframe & Hnew & _).
  exists jobs, w1. split; [done|]. split; [|split].
  - clear Hrun Hnew. induction Hjobs as [|job url jobs urls' Hjob _ IH].
    + constructor.
    + constructor; [|exact IH].
      exists (expected_job kw url). split; [done|].
      by rewrite expected_job_other, Hentry by done.
  - exists kw. split; [|done].
    rewrite Hframe; [done|]. apply elem_of_dom. eauto.
  - intros l nested _ Hl.
    assert (Hdom : l ∈ dom (heap w)) by (apply elem_of_dom; eauto).
    split; [by rewrite Hframe|].
    intros Hin. rewrite Forall_forall in Hnew. by apply (Hnew _ Hin).
Qed.


End MoreFromUrlsFacts.

Section MoreProxyFacts.

Context {Job Resp Exn Value : Type}.
Context `{PyObject Value Resp} `{PyObject Value Exn}.
Variable builtin_attr : string -> bool.

Import ThreadProxy.

Lemma field_or_not (name field : string) :
  String.eqb name field = true \/ String.eqb name field = false.
Proof. destruct (String.eqb name field); auto. Qed.

(** X10: a wrapper whose fields were never set (an instance made without
    [__init__], as copying and unpickling make one) answers every name that
    its classes do not define with [AttributeError], the two fixed fields
    included; the proxy does not recurse into itself. *)
Theorem unset_wrapper_raises_AttributeError (name : string)
    (Hresp : type_lookup builtin_attr ThreadResponseC name = None)
    (Hexc : type_lookup builtin_attr ThreadExceptionC name = None) :
  getattr builtin_attr
    (mkInstance (Job := Job) (Obj := Resp) ThreadResponseC (fun _ => None))
    name = inl AttributeError /\
  getattr builtin_attr
    (mkInstance (Job := Job) (Obj := Exn) ThreadExceptionC (fun _ => None))
    name = inl AttributeError.
Proof.
  split.
  - unfold getattr, object_getattribute at 1. cbn [inst_dict inst_class].
    rewrite Hresp. unfold __getattr__.
    change (object_getattribute builtin_attr
              (mkInstance ThreadResponseC (fun _ => None)) "attrs")
      with (inr (B := @AttrValue Job Resp Value) (A := PyError)
              (ClassValue (Attrs ["request_kwargs"; "response"]%string))).
    cbv beta iota.
    match goal with |- context [negb ?b] => destruct (negb b) end; [done|].
    unfold object_getattribute. cbn [inst_dict inst_class].
    by rewrite Hresp.
  - unfold getattr, object_getattribute at 1. cbn [inst_dict inst_class].
    rewrite Hexc. unfold __getattr__.
    change (object_getattribute builtin_attr
              (mkInstance ThreadExceptionC (fun _ => None)) "attrs")
      with (inr (B := @AttrValue Job Exn Value) (A := PyError)
              (ClassValue (Attrs ["request_kwargs"; "exception"]%string))).
    cbv beta iota.
    match goal with |- context [negb ?b] => destruct (negb b) end; [done|].
    unfold object_getattribute. cbn [inst_dict inst_class].
    by rewrite Hexc.
Qed.

(** X12: a wrapper built by [__init__] never fails on its own.  When
    reading a name on it raises, the name is one that its classes do not
    define, the access was forwarded, and the error is the one the wrapped
    response, respectively exception, raised for that name. *)
Theorem wrapper_errors_come_from_the_wrapped_object
    (resp : ThreadResponse.t Job Resp) (exc : ThreadException.t Job Exn)
    (name name' : string) (err err' : PyError)
    (Hresp :
       getattr builtin_attr (ThreadResponse.instance resp) name = inl err)
    (Hexc :
       getattr builtin_attr (ThreadException.instance exc) name' = inl err') :
  (py_getattr (ThreadResponse.response resp) name = inl err /\
   type_lookup builtin_attr ThreadResponseC name = None) /\
  (py_getattr (ThreadException.exception exc) name' = inl err' /\
   type_lookup builtin_attr ThreadExceptionC name' = None).
Proof.
  split.
  - revert Hresp. clear Hexc.
    destruct (field_or_not name "request_kwargs") as [Hkw|Hkw].
    { unfold getattr, object_getattribute.
      cbn [ThreadResponse.instance inst_dict]. by rewrite Hkw. }
    destruct (field_or_not name "response") as [Hr|Hr].
    { unfold getattr, object_getattribute.
      cbn [ThreadResponse.instance inst_dict]. by rewrite Hkw, Hr. }
    destruct (type_lookup builtin_attr ThreadResponseC name) as [a|] eqn:Ht.
    { rewrite (getattr_class_value builtin_attr _ name a); [done| |done].
      cbn [ThreadResponse.instance inst_dict]. by rewrite Hkw, Hr. }
    rewrite response_getattr_forwards;
      [|by cbn [existsb]; rewrite Hkw, Hr|done].
    unfold forwarded.
    destruct (py_getattr (ThreadResponse.response resp) name); [|done].
    by intros [= ->].
  - revert Hexc. clear Hresp.
    destruct (field_or_not name' "request_kwargs") as [Hkw|Hkw].
    { unfold getattr, object_getattribute.
      cbn [ThreadException.instance inst_dict]. by rewrite Hkw. }
    destruct (field_or_not name' "exception") as [Hx|Hx].
    { unfold getattr, object_getattribute.
      cbn [ThreadException.instance inst_dict]. by rewrite Hkw, Hx. }
    destruct (type_lookup builtin_attr ThreadExceptionC name') as [a|] eqn:Ht.
    { rewrite (getattr_class_value builtin_attr _ name' a); [done| |done].
      cbn [ThreadException.instance inst_dict]. by rewrite Hkw, Hx. }
    rewrite exception_getattr_forwards;
      [|by cbn [existsb]; rewrite Hkw, Hx|done].
    unfold forwarded.
    destruct (py_getattr (ThreadException.exception exc) name'); [|done].
    by intros [= ->].
Qed.

End MoreProxyFacts.

(** ** Worked instances of the further properties *)

Lemma workers_have_distinct_clients_witness :
  exists p w',
    Pool_init (Client := nat) (Job := nat) (Resp := unit) (Exn := unit)
      4 [] (Some (mkCallable S true)) None (Some 3) (fun k => k) (mkWorld ∅ 0 0) =
      (inr p, w') /\
    NoDup (map thread_session (_pool p)).
Proof.
  apply (workers_have_distinct_clients
           (Client := nat) (Job := nat) (Resp := unit) (Exn := unit)
           4 [] (Some (mkCallable S true)) None (Some 3) (fun k => k) (mkWorld ∅ 0 0)).
  - intros j k Hjk. exact Hjk.
  - intros j k Hjk. simpl in Hjk. lia.
  - intros j k Hjk. exact Hjk.
  - simpl. lia.
Defined.

Lemma from_urls_copies_are_shallow_witness :
  let headers : gmap string PyVal := {["Accept"%string := VStr "*/*"]} in
  let kw : gmap string PyVal := {["headers"%string := VRef 9%positive]} in
  let w := mkWorld {[5%positive := kw; 9%positive := headers]} 0 0 in
  exists jobs w1,
    from_urls_queue [VStr "http://a"; VStr "http://b"] 5%positive w =
      (inr jobs, w1) /\
    Forall (fun job =>
              exists d, heap w1 !! job = Some d /\
                        d !! "headers"%string = Some (VRef 9%positive))
      jobs /\
    heap w1 !! 9%positive = Some headers.
Proof.
  intros headers kw w.
  destruct (from_urls_copies_are_shallow
              [VStr "http://a"; VStr "http://b"] 5%positive kw
              "headers"%string (VRef 9%positive) w
              ltac:(vm_compute; reflexivity) ltac:(vm_compute; reflexivity)
              ltac:(discriminate))
    as (jobs & w1 & Hrun & Hjobs & _ & Hnested).
  exists jobs, w1. split; [exact Hrun|]. split; [exact Hjobs|].
  exact (proj1 (Hnested 9%positive headers eq_refl
                  ltac:(vm_compute; reflexivity))).
Defined.


Lemma unset_wrapper_raises_AttributeError_witness :
  let wrapped : PyObject Z unit := fun _ name => inr 7 in
  @ThreadProxy.getattr nat unit Z wrapped (fun _ => false)
    (ThreadProxy.mkInstance ThreadResponseC (fun _ => None))
    "status_code" = inl AttributeError /\
  @ThreadProxy.getattr nat unit Z wrapped (fun _ => false)
    (ThreadProxy.mkInstance ThreadExceptionC (fun _ => None))
    "status_code" = inl AttributeError.
Proof.
  intros wrapped.
  exact (@unset_wrapper_raises_AttributeError nat unit unit Z
           wrapped wrapped (fun _ => false) "status_code" eq_refl eq_refl).
Defined.

Lemma wrapper_errors_come_from_the_wrapped_object_witness :
  let response_object : PyObject Z unit :=
    fun _ name =>
      if String.eqb name "status_code" then inr 200 else inl AttributeError in
  let exception_object : PyObject Z nat :=
    fun _ name => inl (ValueError name) in
  response_object tt "elapsed" = inl AttributeError /\
  exception_object 111%nat "errno" = inl (ValueError "errno").
Proof.
  intros response_object exception_object.
  destruct (@wrapper_errors_come_from_the_wrapped_object nat unit nat Z
              response_object exception_object (fun _ => false)
              (ThreadResponse.init 3%nat tt)
              (ThreadException.init 3%nat 111%nat)
              "elapsed" "errno" AttributeError (ValueError "errno")
              eq_refl eq_refl)
    as ((Hr & _) & (He & _)).
  split; [exact Hr|exact He].
Defined.
